(** * WGUPS routing system: a shallow embedding of the planning core

    Times are [Q] hours since midnight (a [datetime] of the fixed day),
    distances are [Q] miles (Python floats read as exact rationals; the
    microsecond rounding of [timedelta] is not modelled).  Package ids are
    [nat].  A Python [dict] keeps insertion order and is an association
    list; the [HashTable] of packages is an association list whose order is
    its iteration order (bucket order, which for ids below the table size
    40 inserted in ascending order is ascending order).  A Python [set] of
    small package ids iterates in ascending order in CPython, and is a sorted
    duplicate-free list.  Activity-log lines are not modelled. *)

From Stdlib Require Import List String Bool Arith Lia QArith Permutation Sorted.
Import ListNotations.

Local Open Scope string_scope.
Local Open Scope list_scope.

(* ------------------------------------------------------------------ *)
(** ** Small helpers *)

Definition Qltb (x y : Q) : bool := negb (Qle_bool y x).

(** [list.remove(x)]: drop the first occurrence. *)
Fixpoint remove_first (x : nat) (l : list nat) : list nat :=
  match l with
  | [] => []
  | y :: r => if Nat.eqb x y then r else y :: remove_first x r
  end.

(** Association-list lookup (a [dict] or the [HashTable]). *)
Fixpoint assoc {V : Type} (k : nat) (l : list (nat * V)) : option V :=
  match l with
  | [] => None
  | (k', v) :: r => if Nat.eqb k k' then Some v else assoc k r
  end.

(** [d[k] = v]: overwrite in place, or append a new key. *)
Fixpoint assoc_set {V : Type} (k : nat) (v : V) (l : list (nat * V)) : list (nat * V) :=
  match l with
  | [] => [(k, v)]
  | (k', v') :: r => if Nat.eqb k k' then (k', v) :: r else (k', v') :: assoc_set k v r
  end.

(* ------------------------------------------------------------------ *)
(** ** Constants ([constants.py]) *)

Definition START_TIME : Q := 8.
Definition EARLY_DEADLINE_CUTOFF : Q := 37 # 4.      (* 9:15 *)
Definition STRICT_DEADLINE_CUTOFF : Q := 10.        (* 10:00 *)
Definition DEADLINE_1030 : Q := 21 # 2.             (* time(10, 30) *)

Inductive pstatus := AT_HUB | EN_ROUTE | DELIVERED.

Definition pstatus_eqb (a b : pstatus) : bool :=
  match a, b with
  | AT_HUB, AT_HUB | EN_ROUTE, EN_ROUTE | DELIVERED, DELIVERED => true
  | _, _ => false
  end.

(* ------------------------------------------------------------------ *)
(** ** Geography ([utils.normalize_address], [utils.get_distance]) *)

(** [normalize_address]: the empty address and the hub aliases become
    ["hub"].  The text clean-up (lower-casing, dropping dots and
    parentheses, abbreviating compass words) is the identity on addresses
    already in that normal form, which is the form every address of this
    development is written in. *)
Definition normalize_address (a : string) : string :=
  if String.eqb a "" then "hub"
  else if String.eqb a "hub" || String.eqb a "wgu" || String.eqb a "wgups"
  then "hub" else a.

Record Geography := mkGeo {
  address_map : list (string * nat);
  distance_matrix : list (list Q)
}.

Fixpoint map_get (m : list (string * nat)) (k : string) : option nat :=
  match m with
  | [] => None
  | (k', i) :: r => if String.eqb k k' then Some i else map_get r k
  end.

Definition in_map (m : list (string * nat)) (k : string) : bool :=
  match map_get m k with Some _ => true | None => false end.

(** [get_distance]: unknown addresses fall back to the hub.  The Python
    code raises (KeyError / IndexError) when the hub itself is missing or
    an index is out of range; well-formed geographies have neither, and
    those paths read as [0] here. *)
Definition get_distance (g : Geography) (from_addr to_addr : string) : Q :=
  let from_norm := normalize_address from_addr in
  let to_norm := normalize_address to_addr in
  let from_norm := if in_map (address_map g) from_norm then from_norm else "hub" in
  let to_norm := if in_map (address_map g) to_norm then to_norm else "hub" in
  match map_get (address_map g) from_norm, map_get (address_map g) to_norm with
  | Some i, Some j => nth j (nth i (distance_matrix g) []) 0
  | _, _ => 0
  end.

(* ------------------------------------------------------------------ *)
(** ** Package ([entities.Package]) *)

(** The derived constraint fields are those [_parse_note] computes from the
    note; note parsing itself is a collaborator. *)
Record Package := mkPackage {
  package_id : nat;
  address : string;
  deadline_time : option Q;          (* None for "EOD" *)
  available_time : Q;
  only_truck : option nat;
  group_with : list nat;
  corrected_address : option string;
  correction_time : option Q;
  original_address : string;
  status : pstatus;
  truck_assigned : option nat;
  departure_time : option Q;
  delivery_time : option Q;
  defer_count : nat                   (* getattr(pkg, 'defer_count', 0) *)
}.

(** A fresh package, as [Package.__init__] leaves it. *)
Definition new_package (pid : nat) (addr : string) (dl : option Q) (avail : Q)
  (only : option nat) (grp : list nat) (corr : option string) (ctime : option Q)
  : Package :=
  mkPackage pid addr dl avail only grp corr ctime addr AT_HUB None None None 0.

Definition pkg_deliver (p : Package) (t : Q) : Package :=
  mkPackage (package_id p) (address p) (deadline_time p) (available_time p)
    (only_truck p) (group_with p) (corrected_address p) (correction_time p)
    (original_address p) DELIVERED (truck_assigned p) (departure_time p)
    (Some t) (defer_count p).

Definition pkg_pickup (p : Package) (t : Q) (tid : nat) : Package :=
  mkPackage (package_id p) (address p) (deadline_time p) (available_time p)
    (only_truck p) (group_with p) (corrected_address p) (correction_time p)
    (original_address p) EN_ROUTE (Some tid) (Some t)
    (delivery_time p) (defer_count p).

Definition pkg_set_defer (p : Package) (n : nat) : Package :=
  mkPackage (package_id p) (address p) (deadline_time p) (available_time p)
    (only_truck p) (group_with p) (corrected_address p) (correction_time p)
    (original_address p) (status p) (truck_assigned p) (departure_time p)
    (delivery_time p) n.

(** [self.corrected_address or self.address] *)
Definition corrected_or_address (p : Package) : string :=
  match corrected_address p with
  | Some c => if String.eqb c "" then address p else c
  | None => address p
  end.

(** [Package.get_address(time=None)] *)
Definition get_address (p : Package) (t : option Q) : string :=
  match correction_time p, t with
  | Some ct, Some now =>
      if Qltb now ct then normalize_address (original_address p)
      else normalize_address (corrected_or_address p)
  | _, _ => normalize_address (corrected_or_address p)
  end.

(** The package table ([HashTable]): iteration order is list order. *)
Definition table := list (nat * Package).

Definition lookup (tbl : table) (pid : nat) : option Package := assoc pid tbl.
Definition tbl_insert (tbl : table) (p : Package) : table :=
  assoc_set (package_id p) p tbl.
Definition tbl_keys (tbl : table) : list nat := map fst tbl.

(* ------------------------------------------------------------------ *)
(** ** Truck ([entities.Truck], identical to [models.Truck]) *)

Record Truck := mkTruck {
  truck_id : nat;
  ttime : Q;
  speed : Q;
  capacity : nat;
  cargo : list nat;
  mileage : Q;
  location : string;
  troute : list nat;
  tstatus : pstatus;
  return_time : option Q
}.

Definition new_truck (tid : nat) (t : Q) (cap : nat) : Truck :=
  mkTruck tid t 18 cap [] 0 "hub" [] AT_HUB None.

Definition set_cargo (t : Truck) (c : list nat) : Truck :=
  mkTruck (truck_id t) (ttime t) (speed t) (capacity t) c (mileage t)
    (location t) (troute t) (tstatus t) (return_time t).

Definition set_time (t : Truck) (now : Q) : Truck :=
  mkTruck (truck_id t) now (speed t) (capacity t) (cargo t) (mileage t)
    (location t) (troute t) (tstatus t) (return_time t).

(** [Truck.load_package]: the package object is returned updated. *)
Definition load_package (t : Truck) (p : Package) : bool * Truck * Package :=
  if Nat.leb (capacity t) (List.length (cargo t)) then (false, t, p)
  else (true, set_cargo t (cargo t ++ [package_id p]),
        pkg_pickup p (ttime t) (truck_id t)).

Definition set_route (t : Truck) (r : list nat) : Truck :=
  mkTruck (truck_id t) (ttime t) (speed t) (capacity t) (cargo t) (mileage t)
    (location t) r EN_ROUTE (return_time t).

Definition drive (t : Truck) (dist : Q) : Truck :=
  mkTruck (truck_id t) (ttime t + dist / speed t) (speed t) (capacity t)
    (cargo t) (mileage t + dist) (location t) (troute t) (tstatus t)
    (return_time t).

(** [Truck.deliver]: drive, stamp the package, drop it from the cargo. *)
Definition truck_deliver (t : Truck) (p : Package) (dist : Q) : Truck * Package :=
  let now := ttime t + dist / speed t in
  let c := if existsb (Nat.eqb (package_id p)) (cargo t)
           then remove_first (package_id p) (cargo t) else cargo t in
  (mkTruck (truck_id t) now (speed t) (capacity t) c (mileage t + dist)
     (location t) (troute t) (tstatus t) (return_time t),
   pkg_deliver p now).

Definition return_to_hub (t : Truck) : Truck :=
  mkTruck (truck_id t) (ttime t) (speed t) (capacity t) (cargo t) (mileage t)
    "hub" (troute t) AT_HUB (Some (ttime t)).

Definition has_capacity (t : Truck) : bool := Nat.ltb (List.length (cargo t)) (capacity t).

Definition set_troute (t : Truck) (r : list nat) : Truck :=
  mkTruck (truck_id t) (ttime t) (speed t) (capacity t) (cargo t) (mileage t)
    (location t) r (tstatus t) (return_time t).

(** Every way the code changes a truck: its methods, and the direct writes
    [truck.route.pop/append] ([execute_route]) and
    [next_truck.time = next_truck.return_time] ([deliver_remaining_packages]). *)
Inductive truck_step : Truck -> Truck -> Prop :=
| ts_load t p : truck_step t (snd (fst (load_package t p)))
| ts_set_route t r : truck_step t (set_route t r)
| ts_drive t d : truck_step t (drive t d)
| ts_deliver t p d : truck_step t (fst (truck_deliver t p d))
| ts_return t : truck_step t (return_to_hub t)
| ts_set_time t now : truck_step t (set_time t now)
| ts_set_troute t r : truck_step t (set_troute t r).

(** Trucks a trial can produce: built by [Truck(...)], then changed. *)
Inductive truck_reachable : Truck -> Prop :=
| tr_new tid now cap : truck_reachable (new_truck tid now cap)
| tr_step t t' : truck_reachable t -> truck_step t t' -> truck_reachable t'.

(** The planner dereferences [packages.lookup(pid)] without a guard (an
    AttributeError on a missing id); the routes it is given hold ids of the
    table.  A missing id reads as a package at the hub. *)
Definition lookup_pkg (tbl : table) (pid : nat) : Package :=
  match lookup tbl pid with
  | Some p => p
  | None => new_package pid "hub" None START_TIME None [] None None
  end.

(* ------------------------------------------------------------------ *)
(** ** Route distance ([optimizer_helpers.calculate_route_distance]) *)

(** [now] is [packages.truck.time], the clock of the truck being planned. *)
Fixpoint route_distance_loop (g : Geography) (tbl : table) (now : Q)
  (loc : string) (total : Q) (route : list nat) : Q * string :=
  match route with
  | [] => (total, loc)
  | pid :: r =>
      let pkg := lookup_pkg tbl pid in
      let dist := get_distance g loc (get_address pkg (Some now)) in
      route_distance_loop g tbl now (get_address pkg (Some now)) (total + dist) r
  end.

Definition calculate_route_distance (g : Geography) (tbl : table) (now : Q)
  (route : list nat) : Q :=
  let '(total, loc) := route_distance_loop g tbl now "hub" 0 route in
  total + get_distance g loc "hub".

(** The legs of a round trip, read off the spec: hub to the first stop,
    stop to stop, last stop back to the hub. *)
Fixpoint legs (prev : string) (stops : list string) : list (string * string) :=
  match stops with
  | [] => [(prev, "hub")]
  | s :: r => (prev, s) :: legs s r
  end.

Definition route_stops (tbl : table) (now : Q) (route : list nat) : list string :=
  map (fun pid => get_address (lookup_pkg tbl pid) (Some now)) route.

Definition legs_total (g : Geography) (tbl : table) (now : Q) (route : list nat) : Q :=
  fold_right (fun '(a, b) acc => get_distance g a b + acc) 0
    (legs "hub" (route_stops tbl now route)).

(** A distance table whose hub row has a zero self-distance. *)
Definition hub_self_zero (g : Geography) : Prop :=
  exists h, map_get (address_map g) "hub" = Some h /\
            Qeq (nth h (nth h (distance_matrix g) []) 0) 0.

(* ------------------------------------------------------------------ *)
(** ** Route execution ([routing.execute_route]) *)

(** [list.pop(i)] *)
Definition pop_at (i : nat) (l : list nat) : list nat :=
  firstn i l ++ skipn (S i) l.

(** One pass of the [while] loop per unit of [fuel]; the loop also stops
    when [i] reaches the end of the route.  The state is the truck (its
    [route] is mutated in place), the package table, [i] and [location]. *)
Fixpoint exec_loop (g : Geography) (fuel : nat) (t : Truck) (tbl : table)
  (i : nat) (loc : string) : Truck * table * nat * string :=
  match fuel with
  | O => (t, tbl, i, loc)
  | S fuel' =>
      if Nat.ltb i (List.length (troute t)) then
        let pid := nth i (troute t) 0%nat in
        match lookup tbl pid with
        | None => exec_loop g fuel' t tbl (S i) loc
        | Some pkg =>
            let deliver_now :=
              let dist := get_distance g loc (get_address pkg (Some (ttime t))) in
              let '(t', pkg') := truck_deliver t pkg dist in
              exec_loop g fuel' t' (tbl_insert tbl pkg') (S i)
                (get_address pkg' (Some (ttime t'))) in
            match correction_time pkg with
            | Some ct =>
                if Qltb (ttime t) ct then
                  if Qltb (ct - ttime t) (1 # 2) then
                    exec_loop g fuel' (set_time t ct) tbl i loc
                  else
                    let n := S (defer_count pkg) in
                    let tbl' := tbl_insert tbl (pkg_set_defer pkg n) in
                    if Nat.ltb 10 n then
                      exec_loop g fuel' t tbl' (S i) loc
                    else
                      exec_loop g fuel' (set_troute t (pop_at i (troute t) ++ [pid]))
                        tbl' i loc
                else deliver_now
            | None => deliver_now
            end
        end
      else (t, tbl, i, loc)
  end.

Definition max_iterations : nat := 1000.

Definition execute_route (g : Geography) (t : Truck) (tbl : table) : Truck * table :=
  let '(t1, tbl1, _, loc) := exec_loop g max_iterations t tbl 0 "hub" in
  (return_to_hub (drive t1 (get_distance g loc "hub")), tbl1).

(* ------------------------------------------------------------------ *)
(** ** Concrete inputs: a package whose address correction is far off *)

(** A two-location geography: the hub and one street address. *)
Definition geo_two : Geography :=
  mkGeo [("hub", 0%nat); ("410 s state st", 1%nat)] [[0; 3]; [3; 0]].

(** Package 9 of a "Wrong address listed" note: correction at 10:20,
    loaded on truck 1 at 8:00. *)
Definition pkg_wrong_addr : Package :=
  pkg_pickup
    (new_package 9 "300 state st" None START_TIME None []
       (Some "410 s state st") (Some (31 # 3)))
    START_TIME 1.

Definition truck_wrong_addr : Truck :=
  set_route (set_cargo (new_truck 1 START_TIME 16) [9%nat]) [9%nat].

Definition tbl_wrong_addr : table := [(9%nat, pkg_wrong_addr)].

(** A truck of capacity 1 holding package 9. *)
Definition full_truck : Truck :=
  snd (fst (load_package (new_truck 1 START_TIME 1) pkg_wrong_addr)).

(* ------------------------------------------------------------------ *)
(** ** Group resolution ([utils.resolve_package_groups]) *)

Definition mem (x : nat) (s : list nat) : bool := existsb (Nat.eqb x) s.

(** [s.add(x)] on a set kept sorted. *)
Fixpoint set_add (x : nat) (s : list nat) : list nat :=
  match s with
  | [] => [x]
  | y :: r => if Nat.eqb x y then s
              else if Nat.ltb x y then x :: s else y :: set_add x r
  end.

Definition rel_get (k : nat) (d : list (nat * list nat)) : list nat :=
  match assoc k d with Some s => s | None => [] end.

(** [d.setdefault(k, set())] *)
Definition setdefault (k : nat) (d : list (nat * list nat)) : list (nat * list nat) :=
  match assoc k d with Some _ => d | None => d ++ [(k, [])] end.

Definition add_rel (k v : nat) (d : list (nat * list nat)) : list (nat * list nat) :=
  assoc_set k (set_add v (rel_get k d)) d.

(** The first loop: the symmetric [direct_relationships] dict. *)
Definition build_relationships (tbl : table) : list (nat * list nat) :=
  fold_left
    (fun d pid =>
       match lookup tbl pid with
       | Some pkg =>
           match group_with pkg with
           | [] => d
           | gw =>
               fold_left
                 (fun d r => add_rel r pid (add_rel pid r (setdefault r d)))
                 gw (setdefault pid d)
           end
       | None => d
       end)
    (tbl_keys tbl) [].

(** The BFS [while queue] loop; [fuel] bounds the number of pops. *)
Fixpoint bfs (fuel : nat) (rel : list (nat * list nat)) (queue visited group_set : list nat)
  : list nat * list nat :=
  match fuel with
  | O => (visited, group_set)
  | S f =>
      match queue with
      | [] => (visited, group_set)
      | cur :: q =>
          if mem cur visited then bfs f rel q visited group_set
          else
            let visited' := set_add cur visited in
            bfs f rel (q ++ filter (fun p => negb (mem p visited')) (rel_get cur rel))
              visited' (set_add cur group_set)
      end
  end.

(** A bound on the pops of every BFS: one start plus one push per edge end. *)
Definition bfs_fuel (rel : list (nat * list nat)) : nat :=
  S (fold_right (fun '(_, s) acc => S (List.length s + acc)) 0%nat rel).

(** The outer [for pid in direct_relationships] loop; it returns the value
    the variable [group_set] holds after the loop ([None]: never bound). *)
Fixpoint components (fuel : nat) (rel : list (nat * list nat)) (keys visited : list nat)
  (group_set : option (list nat)) : option (list nat) :=
  match keys with
  | [] => group_set
  | pid :: ks =>
      if mem pid visited then components fuel rel ks visited group_set
      else
        let '(visited', gs) := bfs fuel rel [pid] visited [] in
        components fuel rel ks visited' (Some gs)
  end.

(** [resolve_package_groups].  The [if group_set: group.append(group_set)]
    stands after the loop, at function level.  [None] is the
    UnboundLocalError raised when no package has a group. *)
Definition resolve_package_groups (tbl : table) : option (list (list nat)) :=
  let rel := build_relationships tbl in
  match components (bfs_fuel rel) rel (map fst rel) [] None with
  | None => None
  | Some gs => Some (match gs with [] => [] | _ => [gs] end)
  end.

(** Four packages in two disjoint pairs: 1 with 2, 3 with 4. *)
Definition pkg_grouped (pid : nat) (grp : list nat) : Package :=
  new_package pid "hub" None START_TIME None grp None None.

Definition tbl_two_pairs : table :=
  [(1%nat, pkg_grouped 1 [2%nat]); (2%nat, pkg_grouped 2 []);
   (3%nat, pkg_grouped 3 [4%nat]); (4%nat, pkg_grouped 4 [])].

(* ------------------------------------------------------------------ *)
(** ** Feasibility ([simulation.constraints_satisfied]) *)

(** [not (pkg.deadline_time and pkg.delivery_time and delivery > deadline)] *)
Definition deadline_ok (p : Package) : bool :=
  match deadline_time p, delivery_time p with
  | Some d, Some t => negb (Qltb d t)
  | _, _ => true
  end.

(** [not (pkg.only_truck and pkg.truck_assigned != pkg.only_truck)];
    truck 0 is falsy. *)
Definition truck_ok (p : Package) : bool :=
  match only_truck p with
  | Some v =>
      if Nat.eqb v 0 then true
      else match truck_assigned p with Some a => Nat.eqb a v | None => false end
  | None => true
  end.

Definition constraints_satisfied (tbl : table) (trucks : list Truck) : bool :=
  let all_deadlines_met := forallb (fun pid => deadline_ok (lookup_pkg tbl pid)) (tbl_keys tbl) in
  let all_trucks_respected := forallb (fun pid => truck_ok (lookup_pkg tbl pid)) (tbl_keys tbl) in
  let all_groups_kept := true in
  all_deadlines_met && all_trucks_respected && all_groups_kept.

(* ------------------------------------------------------------------ *)
(** ** Exact search ([optimizer_helpers.optimize_with_permutations]) *)

(** Each element with the others in order: the choice of a first element
    in [itertools.permutations]. *)
Fixpoint picks (l : list nat) : list (nat * list nat) :=
  match l with
  | [] => []
  | x :: r => (x, r) :: map (fun '(y, r') => (y, x :: r')) (picks r)
  end.

Fixpoint permutations_n (n : nat) (l : list nat) : list (list nat) :=
  match n with
  | O => [[]]
  | S n' => flat_map (fun '(x, r) => map (cons x) (permutations_n n' r)) (picks l)
  end.

(** [itertools.permutations(l)], in its order. *)
Definition permutations (l : list nat) : list (list nat) :=
  permutations_n (List.length l) l.

(** The inner [for pid in perm] loop: [(on_time, total_dist)].  The
    address of the next stop is read at the departure time, the location
    after it at the arrival time, as the code does. *)
Fixpoint perm_eval (g : Geography) (tbl : table) (spd : Q) (perm : list nat)
  (time_cursor : Q) (loc : string) (total_dist : Q) : bool * Q :=
  match perm with
  | [] => (true, total_dist)
  | pid :: r =>
      let pkg := lookup_pkg tbl pid in
      let dist := get_distance g loc (get_address pkg (Some time_cursor)) in
      let total' := total_dist + dist in
      let tc := time_cursor + dist / spd in
      let continue := perm_eval g tbl spd r tc (get_address pkg (Some tc)) total' in
      match deadline_time pkg with
      | Some d => if Qltb d tc then (false, total') else continue
      | None => continue
      end
  end.

(** [if on_time and total_dist < best_score]; [None] is [float('inf')]. *)
Definition perm_step (g : Geography) (tbl : table) (t : Truck)
  (acc : option (list nat) * option Q) (perm : list nat) : option (list nat) * option Q :=
  let '(on_time, total_dist) := perm_eval g tbl (speed t) perm (ttime t) "hub" 0 in
  let better := match snd acc with None => true | Some s => Qltb total_dist s end in
  if on_time && better then (Some perm, Some total_dist) else acc.

Definition perm_search (g : Geography) (tbl : table) (t : Truck) (deadlines : list nat)
  : option (list nat) * option Q :=
  fold_left (perm_step g tbl t) (permutations deadlines) (None, None).

(** The first of the strict minima of [f] over [l], in iteration order. *)
Definition argmin_first (f : nat -> Q) (l : list nat) : option nat :=
  option_map fst
    (fold_left (fun acc pid =>
                  match acc with
                  | None => Some (pid, f pid)
                  | Some (_, bd) => if Qltb (f pid) bd then Some (pid, f pid) else acc
                  end) l None).

(** The greedy [while remaining] fill; at most [|remaining|] rounds. *)
Fixpoint nn_fill (g : Geography) (tbl : table) (now : Q) (fuel : nat)
  (loc : string) (remaining route : list nat) : list nat :=
  match fuel with
  | O => route
  | S f =>
      match remaining with
      | [] => route
      | _ =>
          match argmin_first
                  (fun pid => get_distance g loc (get_address (lookup_pkg tbl pid) (Some now)))
                  remaining with
          | None => route
          | Some nxt =>
              nn_fill g tbl now f (get_address (lookup_pkg tbl nxt) (Some now))
                (remove_first nxt remaining) (route ++ [nxt])
          end
      end
  end.

(** [set(l)] for small ids: sorted, without duplicates. *)
Definition to_set (l : list nat) : list nat := fold_left (fun s x => set_add x s) l [].

Definition optimize_with_permutations (g : Geography) (tbl : table) (t : Truck)
  (deadlines others : list nat) : option (list nat) :=
  match fst (perm_search g tbl t deadlines) with
  | None | Some [] => None
  | Some best =>
      let remaining := to_set others in
      let loc := get_address (lookup_pkg tbl (last best 0%nat)) (Some (ttime t)) in
      Some (nn_fill g tbl (ttime t) (List.length remaining) loc remaining best)
  end.

(** The spec's reading of a permutation: the arrival instant of each stop
    from the truck's clock at its speed, whether every deadline is met, and
    the directed distance hub -> ... -> last stop. *)
Fixpoint arrivals (g : Geography) (tbl : table) (spd : Q) (tc : Q) (loc : string)
  (perm : list nat) : list (nat * Q * Q) :=
  match perm with
  | [] => []
  | pid :: r =>
      let pkg := lookup_pkg tbl pid in
      let dist := get_distance g loc (get_address pkg (Some tc)) in
      let arr := tc + dist / spd in
      (pid, dist, arr) :: arrivals g tbl spd arr (get_address pkg (Some arr)) r
  end.

Definition arrival_ok (tbl : table) (x : nat * Q * Q) : bool :=
  let '(pid, _, arr) := x in
  match deadline_time (lookup_pkg tbl pid) with
  | Some d => Qle_bool arr d
  | None => true
  end.

Definition time_feasible (g : Geography) (tbl : table) (t : Truck) (perm : list nat) : bool :=
  forallb (arrival_ok tbl) (arrivals g tbl (speed t) (ttime t) "hub" perm).

Definition directed_distance (g : Geography) (tbl : table) (t : Truck) (perm : list nat) : Q :=
  fold_right (fun '(_, dist, _) acc => dist + acc) 0
    (arrivals g tbl (speed t) (ttime t) "hub" perm).

(** The state of the search after some permutations: nothing found yet,
    or a best ordering of the subset that meets every deadline, with its
    directed distance as score. *)
Definition search_inv (g : Geography) (tbl : table) (t : Truck) (deadlines : list nat)
  (acc : option (list nat) * option Q) : Prop :=
  acc = (None, None) \/
  exists b s, acc = (Some b, Some s) /\ time_feasible g tbl t b = true /\
              s == directed_distance g tbl t b /\ Permutation b deadlines.

(** Three packages due at 9:00, 9:00 and 10:30 on a line hub - a - b - c;
    the geography [geo_line] has the hub and the three addresses. *)
Definition geo_line : Geography :=
  mkGeo [("hub", 0%nat); ("a", 1%nat); ("b", 2%nat); ("c", 3%nat)]
    [[0; 2; 4; 6]; [2; 0; 2; 4]; [4; 2; 0; 2]; [6; 4; 2; 0]].

Definition tbl_line : table :=
  [(1%nat, new_package 1 "c" (Some 9) START_TIME None [] None None);
   (2%nat, new_package 2 "a" (Some 9) START_TIME None [] None None);
   (3%nat, new_package 3 "b" (Some (21 # 2)) START_TIME None [] None None);
   (4%nat, new_package 4 "b" None START_TIME None [] None None)].

(* ------------------------------------------------------------------ *)
(** ** 2-opt refinement ([optimizer_helpers.apply_2opt]) *)

(** [list.index] on a list; it is only called on members (the source
    tests [pid in segment] first), and returns the length otherwise. *)
Fixpoint index_of (x : nat) (l : list nat) : nat :=
  match l with
  | [] => 0
  | y :: r => if Nat.eqb x y then 0 else S (index_of x r)
  end.

(** [best[i:j+1]] and [best[:i] + best[i:j+1][::-1] + best[j+1:]]. *)
Definition segment (best : list nat) (i j : nat) : list nat :=
  firstn (S j - i) (skipn i best).

Definition reverse_segment (best : list nat) (i j : nat) : list nat :=
  firstn i best ++ rev (segment best i j) ++ skipn (S j) best.

(** [any(pid in segment and reversed_segment.index(pid) > segment.index(pid)
    for pid in deadline_packages)] *)
Definition delays_deadline (deadline_packages seg : list nat) : bool :=
  existsb (fun pid => mem pid seg && Nat.ltb (index_of pid seg) (index_of pid (rev seg)))
    deadline_packages.

(** The inner loop over [j]: the first reversal that is allowed and
    strictly shortens the round trip. *)
Fixpoint scan_j (g : Geography) (tbl : table) (now : Q) (dl best : list nat)
  (best_dist : Q) (i : nat) (js : list nat) : option (list nat * Q) :=
  match js with
  | [] => None
  | j :: js' =>
      if delays_deadline dl (segment best i j) then scan_j g tbl now dl best best_dist i js'
      else
        let new_route := reverse_segment best i j in
        let new_dist := calculate_route_distance g tbl now new_route in
        if Qltb new_dist best_dist then Some (new_route, new_dist)
        else scan_j g tbl now dl best best_dist i js'
  end.

(** The outer loop over [i] ([for i in range(len(best)-1)]), left at the
    first improvement. *)
Fixpoint scan_i (g : Geography) (tbl : table) (now : Q) (dl best : list nat)
  (best_dist : Q) (is : list nat) : option (list nat * Q) :=
  match is with
  | [] => None
  | i :: is' =>
      match scan_j g tbl now dl best best_dist i
              (seq (i + 2) (List.length best - (i + 2))) with
      | Some r => Some r
      | None => scan_i g tbl now dl best best_dist is'
      end
  end.

Definition two_opt_pass (g : Geography) (tbl : table) (now : Q) (dl best : list nat)
  (best_dist : Q) : option (list nat * Q) :=
  scan_i g tbl now dl best best_dist (seq 0 (List.length best - 1)).

(** [while improved]: every pass that improves yields a strictly shorter
    rearrangement of the same packages, so no rearrangement comes back and
    [fact (length route) + 1] passes are enough for the source loop to stop. *)
Fixpoint two_opt_loop (g : Geography) (tbl : table) (now : Q) (dl : list nat)
  (fuel : nat) (best : list nat) (best_dist : Q) : list nat :=
  match fuel with
  | O => best
  | S fuel' =>
      match two_opt_pass g tbl now dl best best_dist with
      | Some (nr, nd) => two_opt_loop g tbl now dl fuel' nr nd
      | None => best
      end
  end.

(** Packages of the route whose deadline is at or before 10:00. *)
Definition deadline_packages (tbl : table) (route : list nat) : list nat :=
  filter (fun pid => match lookup tbl pid with
                     | Some pkg => match deadline_time pkg with
                                   | Some d => Qle_bool d STRICT_DEADLINE_CUTOFF
                                   | None => false
                                   end
                     | None => false
                     end) route.

(** The call to [calculate_delivery_times] inside the source function
    discards its result and changes nothing, so it is left out here. *)
Definition apply_2opt (g : Geography) (tbl : table) (now : Q) (route : list nat)
  : list nat :=
  if Nat.leb (List.length route) 2 then route
  else two_opt_loop g tbl now (deadline_packages tbl route)
         (S (fact (List.length route))) route
         (calculate_route_distance g tbl now route).

(** [calculate_delivery_times]: projected delivery instant of each package
    of the route, from the truck's clock [now] at speed [spd]. *)
Fixpoint delivery_times_loop (g : Geography) (tbl : table) (spd : Q)
  (loc : string) (cur : Q) (acc : list (nat * Q)) (route : list nat) : list (nat * Q) :=
  match route with
  | [] => acc
  | pid :: r =>
      let pkg := lookup_pkg tbl pid in
      let dist := get_distance g loc (get_address pkg (Some cur)) in
      let cur' := cur + dist / spd in
      delivery_times_loop g tbl spd (get_address pkg (Some cur')) cur'
        (assoc_set pid cur' acc) r
  end.

Definition calculate_delivery_times (g : Geography) (tbl : table) (now spd : Q)
  (route : list nat) : list (nat * Q) :=
  delivery_times_loop g tbl spd "hub" now [] route.

(** A star around the hub: "p1" and "l" one mile from the hub, two miles
    from each other. Package 2 at "p1" is due at 9:00; 1 and 4 are also at
    "p1", 3 is at "l". *)
Definition geo_star : Geography :=
  mkGeo [("hub", 0%nat); ("p1", 1%nat); ("l", 2%nat)]
    [[0; 1; 1]; [1; 0; 2]; [1; 2; 0]].

Definition tbl_star : table :=
  [(1%nat, new_package 1 "p1" None START_TIME None [] None None);
   (2%nat, new_package 2 "p1" (Some 9) START_TIME None [] None None);
   (3%nat, new_package 3 "l" None START_TIME None [] None None);
   (4%nat, new_package 4 "p1" None START_TIME None [] None None)].

Definition route_star : list nat := [1%nat; 2%nat; 3%nat; 4%nat].

(* ------------------------------------------------------------------ *)
(** ** The route optimizer ([optimizers.NN2OptOptimizer.optimize]) *)

(** [_handle_address_corrections]: (current, deferred). *)
Definition handle_address_corrections (tbl : table) (t : Truck) : list nat * list nat :=
  fold_left
    (fun '(cur, dfr) pid =>
       match lookup tbl pid with
       | Some pkg =>
           match correction_time pkg with
           | Some ct => if Qltb (ttime t) ct then (cur, dfr ++ [pid]) else (cur ++ [pid], dfr)
           | None => (cur ++ [pid], dfr)
           end
       | None => (cur ++ [pid], dfr)
       end)
    (cargo t) ([], []).

(** [_categorize_packages]: deadline at or before 10:30, and the others. *)
Definition categorize_packages (tbl : table) (pids : list nat) : list nat * list nat :=
  fold_left
    (fun '(dls, oth) pid =>
       match lookup tbl pid with
       | Some pkg =>
           match deadline_time pkg with
           | Some d => if Qle_bool d DEADLINE_1030 then (dls ++ [pid], oth) else (dls, oth ++ [pid])
           | None => (dls, oth ++ [pid])
           end
       | None => (dls, oth ++ [pid])
       end)
    pids ([], []).

(** [list.sort(key=...)], stable: [lt] is the strict order on keys. *)
Fixpoint insert_by (lt : nat -> nat -> bool) (x : nat) (l : list nat) : list nat :=
  match l with
  | [] => [x]
  | y :: r => if lt x y then x :: l else y :: insert_by lt x r
  end.

Definition sort_by (lt : nat -> nat -> bool) (l : list nat) : list nat :=
  fold_left (fun acc x => insert_by lt x acc) l [].

(** The greedy loop of [_nearest_neighbor]: [dist * weight] with weight
    0.9 for a package with a deadline. *)
Fixpoint nn_weighted (g : Geography) (tbl : table) (now : Q) (fuel : nat)
  (loc : string) (remaining route : list nat) : list nat :=
  match fuel with
  | O => route
  | S f =>
      match remaining with
      | [] => route
      | _ =>
          match argmin_first
                  (fun pid =>
                     let pkg := lookup_pkg tbl pid in
                     let w := match deadline_time pkg with Some _ => 9 # 10 | None => 1 end in
                     get_distance g loc (get_address pkg (Some now)) * w)
                  remaining with
          | None => route
          | Some nxt =>
              nn_weighted g tbl now f (get_address (lookup_pkg tbl nxt) (Some now))
                (remove_first nxt remaining) (route ++ [nxt])
          end
      end
  end.

Definition early_deadline (tbl : table) (pid : nat) : bool :=
  match lookup tbl pid with
  | Some pkg => match deadline_time pkg with
                | Some d => Qle_bool d STRICT_DEADLINE_CUTOFF
                | None => false
                end
  | None => false
  end.

(** [_nearest_neighbor]: packages due by 10:00 first, by deadline, then the
    weighted greedy fill. *)
Definition nearest_neighbor (g : Geography) (tbl : table) (now : Q) (pids : list nat)
  : list nat :=
  let remaining := to_set pids in
  let early := sort_by (fun a b => match deadline_time (lookup_pkg tbl a),
                                         deadline_time (lookup_pkg tbl b) with
                                   | Some da, Some db => Qltb da db
                                   | _, _ => false
                                   end)
                 (filter (early_deadline tbl) remaining) in
  let '(route, remaining, loc) :=
    fold_left (fun '(route, remaining, loc) pid =>
                 if mem pid remaining
                 then (route ++ [pid], remove_first pid remaining,
                       get_address (lookup_pkg tbl pid) (Some now))
                 else (route, remaining, loc))
      early ([], remaining, "hub") in
  nn_weighted g tbl now (List.length remaining) loc remaining route.

(** [NN2OptOptimizer.optimize]; its [_optimize_with_permutations] and
    [_apply_2opt] are the functions of [optimizer_helpers] modelled above
    (the 2-opt test [i + reversed.index > i + segment.index] is the same
    comparison), with [packages.truck] the truck being planned. *)
Definition optimize (g : Geography) (tbl : table) (t : Truck) : list nat :=
  match cargo t with
  | [] => []
  | _ =>
      let '(current, deferred) := handle_address_corrections tbl t in
      let '(deadlines, others) := categorize_packages tbl current in
      let perm_route :=
        match deadlines with
        | [] => None
        | _ => if Nat.leb (List.length deadlines) 5
               then optimize_with_permutations g tbl t deadlines others else None
        end in
      match perm_route with
      | Some ((_ :: _) as r) => r
      | _ => apply_2opt g tbl (ttime t) (nearest_neighbor g tbl (ttime t) current) ++ deferred
      end
  end.

(* ------------------------------------------------------------------ *)
(** ** A trial ([simulation.run_simulation] with [execute=True]) *)

(** [truck.load_package(packages.lookup(pid))]; the ids come from the
    table, so the lookup succeeds. *)
Definition load_pid (t : Truck) (tbl : table) (pid : nat) : Truck * table :=
  match lookup tbl pid with
  | Some pkg => let '(_, t', pkg') := load_package t pkg in (t', tbl_insert tbl pkg')
  | None => (t, tbl)
  end.

Definition identify_priority_packages (tbl : table) : list nat :=
  filter (fun pid => match deadline_time (lookup_pkg tbl pid) with
                     | Some d => Qle_bool d EARLY_DEADLINE_CUTOFF
                     | None => false
                     end) (tbl_keys tbl).

(** [{1: [...], 2: [...]}] *)
Definition identify_truck_specific_packages (tbl : table) : list nat * list nat :=
  (filter (fun pid => match only_truck (lookup_pkg tbl pid) with
                      | Some v => Nat.eqb v 1 | None => false end) (tbl_keys tbl),
   filter (fun pid => match only_truck (lookup_pkg tbl pid) with
                      | Some v => Nat.eqb v 2 | None => false end) (tbl_keys tbl)).

Definition identify_deadline_packages (tbl : table) : list nat :=
  filter (fun pid =>
            let pkg := lookup_pkg tbl pid in
            match deadline_time pkg with
            | Some d => Qle_bool d DEADLINE_1030 && Qeq_bool (available_time pkg) START_TIME
                        && match only_truck pkg with None => true | Some v => Nat.eqb v 0 end
            | None => false
            end) (tbl_keys tbl).

Definition identify_delayed_packages (tbl : table) : list nat :=
  filter (fun pid => Qltb START_TIME (available_time (lookup_pkg tbl pid))) (tbl_keys tbl).

Definition identify_standard_packages (tbl : table) (prio ts1 ts2 dls delayed : list nat)
  (groups : list (list nat)) : list nat :=
  let constrained := prio ++ ts1 ++ ts2 ++ dls ++ delayed ++ List.concat groups in
  filter (fun pid => negb (mem pid constrained)) (tbl_keys tbl).

(** [{pid: min(group)}] *)
Definition map_packages_to_groups (groups : list (list nat)) : list (nat * nat) :=
  fold_left (fun m grp =>
               let gid := fold_left Nat.min grp (hd 0%nat grp) in
               fold_left (fun m pid => assoc_set pid gid m) grp m)
    groups [].

Definition identify_critical_groups (tbl : table) (groups : list (list nat))
  : list (list nat) :=
  filter (fun grp => existsb (fun pid => match lookup tbl pid with
                                         | Some pkg => match deadline_time pkg with
                                                       | Some _ => true | None => false end
                                         | None => false
                                         end) grp) groups.

(** One member of [load_group_to_truck]'s loop. *)
Definition group_load_step (st : Truck * table) (pid : nat) : Truck * table :=
  let '(t, tbl) := st in
  if mem pid (cargo t) then (t, tbl)
  else match lookup tbl pid with
       | Some pkg => let '(_, t', pkg') := load_package t pkg in (t', tbl_insert tbl pkg')
       | None => (t, tbl)
       end.

Definition load_group_to_truck (t : Truck) (group : list nat) (tbl : table) : Truck * table :=
  if Nat.leb (List.length (cargo t) + List.length group) (capacity t)
  then fold_left group_load_step group (t, tbl)
  else (t, tbl).

(** [[p for p in packages if p in package_to_group and package_to_group[p] == gid]] *)
Definition group_members (tbl : table) (p2g : list (nat * nat)) (gid : nat) : list nat :=
  filter (fun p => match assoc p p2g with Some g' => Nat.eqb g' gid | None => false end)
    (tbl_keys tbl).

Definition load_specific_for (p2g : list (nat * nat)) (st : Truck * table) (pid : nat)
  : Truck * table :=
  let '(t, tbl) := st in
  match assoc pid p2g with
  | Some gid => load_group_to_truck t (group_members tbl p2g gid) tbl
  | None => if has_capacity t then load_pid t tbl pid else (t, tbl)
  end.

Definition load_truck_specific_packages (t1 t2 : Truck) (ts1 ts2 : list nat)
  (p2g : list (nat * nat)) (tbl : table) : Truck * Truck * table :=
  let '(t1, tbl) := fold_left (load_specific_for p2g) ts1 (t1, tbl) in
  let '(t2, tbl) := fold_left (load_specific_for p2g) ts2 (t2, tbl) in
  (t1, t2, tbl).

Definition load_priority_packages (t : Truck) (prio : list nat) (p2g : list (nat * nat))
  (tbl : table) : Truck * table :=
  fold_left
    (fun '(t, tbl) pid =>
       if mem pid (cargo t) then (t, tbl)
       else if has_capacity t then
         match assoc pid p2g with
         | Some gid =>
             let members := group_members tbl p2g gid in
             if Nat.leb (List.length (cargo t) + List.length members) (capacity t)
             then load_group_to_truck t members tbl
             else load_pid t tbl pid
         | None => load_pid t tbl pid
         end
       else (t, tbl))
    prio (t, tbl).

(** [sorted(..., key=deadline_time or datetime.max)] *)
Definition deadline_lt (tbl : table) (a b : nat) : bool :=
  match deadline_time (lookup_pkg tbl a), deadline_time (lookup_pkg tbl b) with
  | Some da, Some db => Qltb da db
  | Some _, None => true
  | None, _ => false
  end.

Definition load_deadline_packages (t : Truck) (dls : list nat) (p2g : list (nat * nat))
  (tbl : table) : Truck * table :=
  fold_left
    (fun '(t, tbl) pid =>
       if mem pid (cargo t) then (t, tbl)
       else match assoc pid p2g with
            | Some gid =>
                match filter (fun p => negb (mem p (cargo t))) (group_members tbl p2g gid) with
                | [] => (t, tbl)
                | members => load_group_to_truck t members tbl
                end
            | None => if has_capacity t then load_pid t tbl pid else (t, tbl)
            end)
    (sort_by (deadline_lt tbl) dls) (t, tbl).

Definition load_delayed_packages (t : Truck) (delayed : list nat) (tbl : table)
  : Truck * table :=
  fold_left (fun '(t, tbl) pid =>
               if mem pid (cargo t) then (t, tbl)
               else if has_capacity t then load_pid t tbl pid else (t, tbl))
    delayed (t, tbl).

(** [calculate_center]: the [address] of [random.choice(cargo_ids)]; the
    random draw is the index [k] (taken modulo the length). *)
Definition calculate_center (cargo_ids : list nat) (tbl : table) (k : nat) : option string :=
  match cargo_ids with
  | [] => None
  | _ => Some (address (lookup_pkg tbl (nth (k mod List.length cargo_ids) cargo_ids 0%nat)))
  end.

(** [get_distance(addr, center) if center else float('inf')]; [None] is
    infinity. *)
Definition dist_to_center (g : Geography) (addr : string) (center : option string) : option Q :=
  match center with
  | Some c => if String.eqb c "" then None else Some (get_distance g addr c)
  | None => None
  end.

Definition inf_le (a b : option Q) : bool :=
  match a, b with
  | _, None => true
  | None, Some _ => false
  | Some x, Some y => Qle_bool x y
  end.

Definition inf_lt (a b : option Q) : bool :=
  match a, b with
  | None, _ => false
  | Some _, None => true
  | Some x, Some y => Qltb x y
  end.

(** [load_by_proximity]; the [hub_distances] it computes are never read.
    [k1] and [k2] are the draws of the two [calculate_center] calls. *)
Definition load_by_proximity (t1 t2 : Truck) (std : list nat) (tbl : table)
  (g : Geography) (k1 k2 : nat) : Truck * Truck * table :=
  match std with
  | [] => (t1, t2, tbl)
  | _ =>
      let c1 := calculate_center (cargo t1) tbl k1 in
      let c2 := calculate_center (cargo t2) tbl k2 in
      fold_left
        (fun '(t1, t2, tbl) pid =>
           if mem pid (cargo t1) || mem pid (cargo t2) then (t1, t2, tbl)
           else match lookup tbl pid with
                | None => (t1, t2, tbl)
                | Some pkg =>
                    let d1 := dist_to_center g (address pkg) c1 in
                    let d2 := dist_to_center g (address pkg) c2 in
                    let into1 := let '(t1', tbl') := load_pid t1 tbl pid in (t1', t2, tbl') in
                    let into2 := let '(t2', tbl') := load_pid t2 tbl pid in (t1, t2', tbl') in
                    if inf_le d1 d2 && has_capacity t1 then into1
                    else if inf_lt d2 d1 && has_capacity t2 then into2
                    else if has_capacity t1 then into1
                    else if has_capacity t2 then into2
                    else (t1, t2, tbl)
                end)
        std (t1, t2, tbl)
  end.

(** [deliver_remaining_packages]; both return times are set by the
    preceding [execute_route] calls. *)
Definition deliver_remaining_packages (g : Geography) (t1 t2 : Truck) (tbl : table)
  : Truck * Truck * table :=
  let remaining := filter (fun pid => negb (pstatus_eqb (status (lookup_pkg tbl pid)) DELIVERED))
                     (tbl_keys tbl) in
  match remaining with
  | [] => (t1, t2, tbl)
  | _ =>
      let first := match return_time t1, return_time t2 with
                   | Some r1, Some r2 => Qle_bool r1 r2
                   | _, _ => true
                   end in
      let nt := if first then t1 else t2 in
      let nt := set_time nt (match return_time nt with Some r => r | None => ttime nt end) in
      let '(nt, tbl) :=
        fold_left (fun '(t, tbl) pid => if has_capacity t then load_pid t tbl pid else (t, tbl))
          remaining (nt, tbl) in
      let '(nt, tbl) :=
        match cargo nt with
        | [] => (nt, tbl)
        | _ => execute_route g (set_route nt (optimize g tbl nt)) tbl
        end in
      if first then (nt, t2, tbl) else (t1, nt, tbl)
  end.

(** Steps 1 to 5 of [run_simulation] up to the proximity loading: the two
    trucks (truck 2 leaves at 9:05), the table and the standard packages.
    [None] is the UnboundLocalError of [resolve_package_groups]. *)
Definition load_trucks (tbl : table) : option (Truck * Truck * table * list nat) :=
  match resolve_package_groups tbl with
  | None => None
  | Some groups =>
      let t1 := new_truck 1 START_TIME 16 in
      let t2 := new_truck 2 (109 # 12) 16 in
      let prio := identify_priority_packages tbl in
      let '(ts1, ts2) := identify_truck_specific_packages tbl in
      let dls := identify_deadline_packages tbl in
      let delayed := identify_delayed_packages tbl in
      let p2g := map_packages_to_groups groups in
      let critical := identify_critical_groups tbl groups in
      let '(t1, t2, tbl) := load_truck_specific_packages t1 t2 ts1 ts2 p2g tbl in
      let '(t1, tbl) := fold_left (fun '(t, tbl) grp => load_group_to_truck t grp tbl)
                          critical (t1, tbl) in
      let '(t1, tbl) := load_priority_packages t1 prio p2g tbl in
      let '(t1, tbl) := load_deadline_packages t1 dls p2g tbl in
      let '(t2, tbl) := load_delayed_packages t2 delayed tbl in
      let std := identify_standard_packages tbl prio ts1 ts2 dls delayed groups in
      Some (t1, t2, tbl, std)
  end.

(** Step 6: plan and drive both routes, then the leftovers. *)
Definition execute_trial (g : Geography) (t1 t2 : Truck) (tbl : table) : table * Truck * Truck :=
  let '(t1, tbl) := execute_route g (set_route t1 (optimize g tbl t1)) tbl in
  let '(t2, tbl) := execute_route g (set_route t2 (optimize g tbl t2)) tbl in
  let '(t1, t2, tbl) := deliver_remaining_packages g t1 t2 tbl in
  (tbl, t1, t2).

(** [run_simulation(optimizer, execute=True)] on the table and geography
    that [load_packages] and [load_distances] return, with the draws [k1]
    and [k2] of [random.choice]. *)
Definition run_simulation (tbl : table) (g : Geography) (k1 k2 : nat)
  : option (table * Truck * Truck) :=
  match load_trucks tbl with
  | None => None
  | Some (t1, t2, tbl, std) =>
      let '(t1, t2, tbl) := load_by_proximity t1 t2 std tbl g k1 k2 in
      Some (execute_trial g t1 t2 tbl)
  end.

(** Every entry of the table is stored under its package's id. *)
Definition table_keyed (tbl : table) : Prop :=
  forall k p, lookup tbl k = Some p -> package_id p = k.

(** Package 1 (due 9:00) must go with package 2, which reaches the depot
    at 9:05; both are at "a", one mile from the hub. *)
Definition geo_split : Geography :=
  mkGeo [("hub", 0%nat); ("a", 1%nat)] [[0; 1]; [1; 0]].

Definition tbl_split : table :=
  [(1%nat, new_package 1 "a" (Some 9) START_TIME None [2%nat] None None);
   (2%nat, new_package 2 "a" None (109 # 12) None [] None None)].


(** Forty-nine packages at "a": 1 to 16 may only go on truck 1, 17 to 32
    reach the depot at 9:05, 34 must go with 35; packages 1, 17, 33 and 39
    are due at 10:30, the others at end of day.  The list is the
    [HashTable(40)]'s iteration order: bucket [k mod 40] in turn, so 40
    first, then 1, 41, 2, 42, ..., 9, 49, 10, 11, ..., 39. *)
Definition pkg_overflow (n : nat) : Package :=
  new_package n "a"
    (if Nat.eqb n 1 || Nat.eqb n 17 || Nat.eqb n 33 || Nat.eqb n 39
     then Some DEADLINE_1030 else None)
    (if Nat.leb 17 n && Nat.leb n 32 then 109 # 12 else START_TIME)
    (if Nat.leb n 16 then Some 1%nat else None)
    (if Nat.eqb n 34 then [35%nat] else [])
    None None.

Definition tbl_overflow : table :=
  map (fun n => (n, pkg_overflow n))
    (40%nat :: flat_map (fun b => if Nat.leb b 9 then [b; (b + 40)%nat] else [b]) (seq 1 39)).

(** Packages 1 ("a") and 2 ("b") are due at 9:00 and grouped, 3 ("c")
    arrives at 9:05, 4 ("b") has no constraint. *)
Definition geo_choice : Geography :=
  mkGeo [("hub", 0%nat); ("a", 1%nat); ("b", 2%nat); ("c", 3%nat)]
    [[0; 3; 3; 1]; [3; 0; 5; 3]; [3; 5; 0; 2]; [1; 3; 2; 0]].

Definition tbl_choice : table :=
  [(1%nat, new_package 1 "a" (Some 9) START_TIME None [2%nat] None None);
   (2%nat, new_package 2 "b" (Some 9) START_TIME None [] None None);
   (3%nat, new_package 3 "c" None (109 # 12) None [] None None);
   (4%nat, new_package 4 "b" None START_TIME None [] None None)].

(** All the packages of [cs] carry one [address]. *)
Definition single_address (tbl : table) (cs : list nat) : bool :=
  match cs with
  | [] => true
  | c :: _ => forallb (fun p => String.eqb (address (lookup_pkg tbl p))
                                           (address (lookup_pkg tbl c))) cs
  end.

(** [tbl_choice] with package 2 also at "a": each truck's cargo has one
    address when the standard package 4 is placed. *)
Definition tbl_one_centre : table :=
  [(1%nat, new_package 1 "a" (Some 9) START_TIME None [2%nat] None None);
   (2%nat, new_package 2 "a" (Some 9) START_TIME None [] None None);
   (3%nat, new_package 3 "c" None (109 # 12) None [] None None);
   (4%nat, new_package 4 "b" None START_TIME None [] None None)].

(* ------------------------------------------------------------------ *)
(** ** The bucketed [HashTable] ([data_structures.py])

    The package store above reads the table through its iteration order;
    here is the class itself, with its [size] buckets of [(key, value)]
    pairs.  A Python exception ([ZeroDivisionError] for [size = 0],
    [IndexError] for a bucket index past the list) is [None]. *)

Record HashTable (V : Type) := mkHashTable {
  ht_size : nat;
  ht_table : list (list (nat * V))
}.
Arguments mkHashTable {V}.
Arguments ht_size {V}.
Arguments ht_table {V}.

(** [lst[i] = x] on a list that is long enough. *)
Fixpoint replace_nth {A : Type} (i : nat) (x : A) (l : list A) : list A :=
  match l, i with
  | [], _ => []
  | _ :: r, O => x :: r
  | y :: r, S j => y :: replace_nth j x r
  end.

(** [del bucket[i]] for the first pair whose key is [k]. *)
Fixpoint assoc_del {V : Type} (k : nat) (l : list (nat * V)) : list (nat * V) :=
  match l with
  | [] => []
  | (k', v) :: r => if Nat.eqb k' k then r else (k', v) :: assoc_del k r
  end.

(** [HashTable.__init__(size)] *)
Definition ht_new {V : Type} (size : nat) : HashTable V :=
  mkHashTable size (repeat [] size).

(** [self.table[self._hash(key)]]: [key % self.size], then the index. *)
Definition ht_bucket {V : Type} (h : HashTable V) (key : nat)
  : option (list (nat * V)) :=
  if Nat.eqb (ht_size h) 0 then None
  else nth_error (ht_table h) (key mod ht_size h).

(** [HashTable.insert]: overwrite the pair with this key, else append. *)
Definition ht_insert {V : Type} (h : HashTable V) (key : nat) (value : V)
  : option (HashTable V) :=
  match ht_bucket h key with
  | None => None
  | Some b =>
      Some (mkHashTable (ht_size h)
              (replace_nth (key mod ht_size h) (assoc_set key value b)
                           (ht_table h)))
  end.

(** [HashTable.lookup]: [Some None] is the Python [None] result. *)
Definition ht_lookup {V : Type} (h : HashTable V) (key : nat)
  : option (option V) :=
  match ht_bucket h key with
  | None => None
  | Some b => Some (assoc key b)
  end.

(** [HashTable.delete]: remove the first pair with this key, if any. *)
Definition ht_delete {V : Type} (h : HashTable V) (key : nat)
  : option (HashTable V) :=
  match ht_bucket h key with
  | None => None
  | Some b =>
      Some (mkHashTable (ht_size h)
              (replace_nth (key mod ht_size h) (assoc_del key b) (ht_table h)))
  end.

(** [HashTable.items()]; [__iter__] yields their keys in this order. *)
Definition ht_items {V : Type} (h : HashTable V) : list (nat * V) :=
  List.concat (ht_table h).

Definition ht_keys {V : Type} (h : HashTable V) : list nat :=
  map fst (ht_items h).

(** [HashTable.__len__]: the sum of the bucket lengths. *)
Definition ht_len {V : Type} (h : HashTable V) : nat :=
  fold_left (fun total b => (total + List.length b)%nat) (ht_table h) 0%nat.

(** The shape the constructor sets up and every operation keeps: [size]
    buckets, each pair in the bucket its key hashes to, and a key at most
    once per bucket. *)
Definition ht_wf {V : Type} (h : HashTable V) : Prop :=
  (0 < ht_size h)%nat /\
  List.length (ht_table h) = ht_size h /\
  (forall i b, nth_error (ht_table h) i = Some b ->
     NoDup (map fst b) /\ forall k v, In (k, v) b -> k mod ht_size h = i).

(** [ht_wf] as a test, for concrete tables. *)
Fixpoint nodup_b (l : list nat) : bool :=
  match l with
  | [] => true
  | x :: r => negb (mem x r) && nodup_b r
  end.

Fixpoint buckets_ok {V : Type} (size i : nat) (l : list (list (nat * V))) : bool :=
  match l with
  | [] => true
  | b :: r => nodup_b (map fst b) &&
              forallb (fun kv => Nat.eqb (fst kv mod size) i) b &&
              buckets_ok size (S i) r
  end.

Definition ht_wf_b {V : Type} (h : HashTable V) : bool :=
  Nat.ltb 0 (ht_size h) && Nat.eqb (List.length (ht_table h)) (ht_size h) &&
  buckets_ok (ht_size h) 0 (ht_table h).

(** A table of size 40 holding 3 -> 7, and 12 -> 5 and 52 -> 6 in the
    same bucket: what [insert(12, 5)], [insert(52, 6)], [insert(3, 7)]
    build from [HashTable(40)]. *)
Definition ht_sample : HashTable nat :=
  mkHashTable 40 (replace_nth 3 [(3%nat, 7%nat)]
                    (replace_nth 12 [(12%nat, 5%nat); (52%nat, 6%nat)] (repeat [] 40))).

(* ------------------------------------------------------------------ *)
(** ** Conditions of the planner's partitions *)

(** [pkg and pkg.correction_time and pkg.correction_time > truck.time]
    ([_handle_address_corrections]). *)
Definition correction_pending (tbl : table) (now : Q) (pid : nat) : bool :=
  match lookup tbl pid with
  | Some pkg => match correction_time pkg with
                | Some ct => Qltb now ct
                | None => false
                end
  | None => false
  end.

(** [pkg and pkg.deadline_time and pkg.deadline_time.time() <= time(10, 30)]
    ([_categorize_packages]). *)
Definition due_by_1030 (tbl : table) (pid : nat) : bool :=
  match lookup tbl pid with
  | Some pkg => match deadline_time pkg with
                | Some d => Qle_bool d DEADLINE_1030
                | None => false
                end
  | None => false
  end.

(** Package 1 at "a" is due at 9:00; package 5 at "b" has the
    wrong-address note: corrected to "410 s state st" at 10:20. *)
Definition tbl_deferred : table :=
  [(1%nat, new_package 1 "a" (Some 9) START_TIME None [] None None);
   (5%nat, new_package 5 "b" None START_TIME None [] (Some "410 s state st") (Some (31 # 3)))].

Definition truck_deferred : Truck := set_cargo (new_truck 1 START_TIME 16) [1%nat; 5%nat].

(** The package [pid] is in the table, marked delivered with a time. *)
Definition delivered_in (tbl : table) (pid : nat) : Prop :=
  exists p d, lookup tbl pid = Some p /\ status p = DELIVERED /\ delivery_time p = Some d.

(** The address correction of the package is already in force at [now]. *)
Definition correction_settled (now : Q) (p : Package) : Prop :=
  match correction_time p with Some ct => ct <= now | None => True end.






(** Truck 1 at 8:00 with the four packages of [tbl_line] on its route. *)
Definition truck_line : Truck :=
  set_route (set_cargo (new_truck 1 START_TIME 16) [1%nat; 2%nat; 3%nat; 4%nat])
    [2%nat; 3%nat; 1%nat; 4%nat].

(* ------------------------------------------------------------------ *)
(** ** Mileage estimate ([estimate_route_mileage], in [routing] and
    [simulation]) *)

(** The loop reads [pkg.address], the raw address; a missing id makes
    [packages.lookup] return [None] and [None.address] raise, read here as
    [None]. *)
Fixpoint estimate_loop (g : Geography) (tbl : table) (loc : string) (total : Q)
  (route : list nat) : option (Q * string) :=
  match route with
  | [] => Some (total, loc)
  | pid :: r =>
      match lookup tbl pid with
      | None => None
      | Some pkg =>
          let dist := get_distance g loc (address pkg) in
          estimate_loop g tbl (address pkg) (total + dist) r
      end
  end.

Definition estimate_route_mileage (g : Geography) (tbl : table) (route : list nat)
  : option Q :=
  match estimate_loop g tbl "hub" 0 route with
  | Some (total, loc) => Some (total + get_distance g loc "hub")
  | None => None
  end.

(* ------------------------------------------------------------------ *)
(** ** Status views ([Package.get_status], [_get_status_at_time],
    [_get_address_at_time]) *)

(** The status strings, with the time and truck they print. *)
Inductive status_text :=
| Delivered_at (d : Q)                 (* "Delivered at HH:MM" *)
| En_route_on (tr : option nat)        (* "En route on truck N" *)
| At_the_hub                           (* "At the hub" *)
| At_the_hub_available (a : Q).        (* "At the hub (available at HH:MM)" *)

(** [Package.get_status(time)] *)
Definition get_status (p : Package) (now : Q) : status_text :=
  let en_route_or_hub :=
    match departure_time p with
    | Some dep => if Qle_bool dep now then En_route_on (truck_assigned p) else At_the_hub
    | None => At_the_hub
    end in
  match delivery_time p with
  | Some d => if Qle_bool d now then Delivered_at d else en_route_or_hub
  | None => en_route_or_hub
  end.

(** [_get_status_at_time(package, time)] of the reports and the CLI. *)
Definition get_status_at_time (p : Package) (now : Q) : status_text :=
  if Qltb now (available_time p) then At_the_hub_available (available_time p)
  else get_status p now.

(** Progress order of the statuses: hub, en route, delivered. *)
Definition status_rank (s : status_text) : nat :=
  match s with
  | Delivered_at _ => 2
  | En_route_on _ => 1
  | At_the_hub | At_the_hub_available _ => 0
  end.

(** [_get_address_at_time(package, time)]: no normalisation; an empty
    corrected address is falsy. *)
Definition get_address_at_time (p : Package) (now : Q) : string :=
  let current :=
    match corrected_address p with
    | Some c => if String.eqb c "" then address p else c
    | None => address p
    end in
  match correction_time p with
  | Some ct => if Qltb now ct then original_address p else current
  | None => current
  end.

(* ====================================================================== *)
(** * Properties *)

Lemma Qltb_true (x y : Q) : Qltb x y = true <-> x < y.
Proof.
  unfold Qltb. rewrite negb_true_iff.
  split; intro H.
  - apply Qnot_le_lt. intro H'. apply Qle_bool_iff in H'. congruence.
  - destruct (Qle_bool y x) eqn:E; [|reflexivity].
    apply Qle_bool_iff in E. exfalso. apply (Qlt_not_le x y); assumption.
Qed.

Lemma Qltb_false (x y : Q) : Qltb x y = false <-> y <= x.
Proof.
  unfold Qltb. rewrite negb_false_iff. apply Qle_bool_iff.
Qed.


Lemma remove_first_length (x : nat) (l : list nat) :
  (List.length (remove_first x l) <= List.length l)%nat.
Proof.
  induction l as [|y r IH]; simpl; [lia|].
  destruct (Nat.eqb x y); simpl; lia.
Qed.

Lemma normalize_hub : normalize_address "hub" = "hub".
Proof. reflexivity. Qed.

(* ------------------------------------------------------------------ *)
(** ** Claim C10: [get_address] without a time *)

(** C10: for a package with a pending correction (a non-empty corrected
    address and a correction instant), [get_address()] with no time gives
    the corrected address whatever the clock; with an explicit time it
    gives the original address exactly when that time is strictly before
    the correction instant, and the corrected one from then on. *)
Theorem get_address_pending_correction (p : Package) (c : string) (ct : Q)
  (Hc : corrected_address p = Some c) (Hne : c <> "")
  (Hct : correction_time p = Some ct) :
  get_address p None = normalize_address c /\
  (forall now, now < ct ->
     get_address p (Some now) = normalize_address (original_address p)) /\
  (forall now, ct <= now -> get_address p (Some now) = normalize_address c).
Proof.
  assert (Hcor : corrected_or_address p = c).
  { unfold corrected_or_address. rewrite Hc.
    destruct (String.eqb c "") eqn:E; [apply String.eqb_eq in E; congruence|reflexivity]. }
  unfold get_address. rewrite Hct, Hcor.
  split; [reflexivity|split].
  - intros now Hlt. apply Qltb_true in Hlt. rewrite Hlt. reflexivity.
  - intros now Hle. apply Qltb_false in Hle. rewrite Hle. reflexivity.
Qed.

Lemma get_address_pending_correction_witness :
  get_address pkg_wrong_addr None = normalize_address "410 s state st" /\
  get_address pkg_wrong_addr (Some START_TIME)
    = normalize_address (original_address pkg_wrong_addr).
Proof.
  destruct (get_address_pending_correction pkg_wrong_addr "410 s state st" (31 # 3)
              eq_refl ltac:(discriminate) eq_refl) as [H0 [H1 _]].
  split; [exact H0|]. apply H1. unfold START_TIME, Qlt. simpl. lia.
Defined.

(* ------------------------------------------------------------------ *)
(** ** Claim C9: the route distance is the sum of its legs *)

Lemma route_distance_loop_legs (g : Geography) (tbl : table) (now : Q)
  (route : list nat) : forall loc total,
  (let '(tot, l) := route_distance_loop g tbl now loc total route in
   tot + get_distance g l "hub")
  == total + fold_right (fun '(a, b) acc => get_distance g a b + acc) 0
                (legs loc (route_stops tbl now route)).
Proof.
  induction route as [|pid r IH]; intros loc total; simpl.
  - ring.
  - specialize (IH (get_address (lookup_pkg tbl pid) (Some now))
                   (total + get_distance g loc
                              (get_address (lookup_pkg tbl pid) (Some now)))).
    unfold route_stops in *.
    destruct (route_distance_loop _ _ _ _ _ r) as [tot l].
    rewrite IH. ring.
Qed.

(** C9: [calculate_route_distance] is the sum of the legs hub -> first
    stop -> ... -> last stop -> hub, each stop the package's effective
    address; the empty route costs the hub's self-distance, which is 0 in a
    distance table with a zero hub diagonal. *)
Theorem calculate_route_distance_round_trip (g : Geography) (tbl : table)
  (now : Q) (route : list nat) :
  calculate_route_distance g tbl now route == legs_total g tbl now route /\
  (hub_self_zero g -> calculate_route_distance g tbl now [] == 0).
Proof.
  split.
  - unfold calculate_route_distance, legs_total.
    pose proof (route_distance_loop_legs g tbl now route "hub" 0) as H.
    destruct (route_distance_loop g tbl now "hub" 0 route) as [tot l].
    rewrite H. ring.
  - intros [h [Hh Hd]]. unfold calculate_route_distance. simpl.
    unfold get_distance. rewrite normalize_hub.
    unfold in_map. rewrite Hh. rewrite Hh. rewrite Hd. reflexivity.
Qed.

Lemma calculate_route_distance_round_trip_witness :
  calculate_route_distance geo_two tbl_wrong_addr START_TIME [] == 0 /\
  calculate_route_distance geo_two tbl_wrong_addr START_TIME [9%nat]
    == legs_total geo_two tbl_wrong_addr START_TIME [9%nat].
Proof.
  destruct (calculate_route_distance_round_trip geo_two tbl_wrong_addr
              START_TIME [9%nat]) as [Hsum Hempty].
  split; [apply Hempty; exists 0%nat; split; reflexivity | exact Hsum].
Defined.

(* ------------------------------------------------------------------ *)
(** ** Claim C8: capacity *)

Lemma truck_step_capacity (t t' : Truck) :
  truck_step t t' ->
  (List.length (cargo t) <= capacity t)%nat ->
  (List.length (cargo t') <= capacity t')%nat.
Proof.
  intros Hs Hinv. destruct Hs; simpl; try exact Hinv.
  - unfold load_package.
    destruct (Nat.leb (capacity t) (List.length (cargo t))) eqn:E; simpl; [exact Hinv|].
    apply Nat.leb_gt in E. rewrite length_app. simpl. lia.
  - unfold truck_deliver. simpl.
    destruct (existsb _ _); simpl; [|exact Hinv].
    pose proof (remove_first_length (package_id p) (cargo t)). lia.
Qed.

(** C8: every truck a trial can produce holds at most [capacity] packages,
    and [load_package] on a full truck returns [False] and leaves the truck
    (its cargo) and the package (its status and assigned truck) unchanged. *)
Theorem truck_capacity_invariant (t : Truck) (p : Package)
  (Hreach : truck_reachable t) :
  (List.length (cargo t) <= capacity t)%nat /\
  ((capacity t <= List.length (cargo t))%nat -> load_package t p = (false, t, p)).
Proof.
  split.
  - induction Hreach as [tid now cap | t t' Hr IH Hs].
    + simpl. lia.
    + exact (truck_step_capacity t t' Hs IH).
  - intros Hfull. unfold load_package.
    apply Nat.leb_le in Hfull. rewrite Hfull. reflexivity.
Qed.

Lemma truck_capacity_invariant_witness :
  List.length (cargo full_truck) = 1%nat /\
  load_package full_truck pkg_wrong_addr = (false, full_truck, pkg_wrong_addr).
Proof.
  split; [reflexivity|].
  apply (truck_capacity_invariant full_truck pkg_wrong_addr).
  - apply (tr_step (new_truck 1 START_TIME 1)); [apply tr_new | apply ts_load].
  - vm_compute. lia.
Defined.


(* ------------------------------------------------------------------ *)
(** ** Claim C1: the deferral cap of [execute_route] *)

Lemma exec_loop_speed (g : Geography) (fuel : nat) : forall t tbl i loc,
  speed (fst (fst (fst (exec_loop g fuel t tbl i loc)))) = speed t.
Proof.
  induction fuel as [|fuel IH]; intros t tbl i loc; simpl; [reflexivity|].
  destruct (Nat.ltb i (List.length (troute t))); [|reflexivity].
  destruct (lookup tbl (nth i (troute t) 0%nat)) as [pkg|]; [|apply IH].
  destruct (correction_time pkg) as [ct|].
  - destruct (Qltb (ttime t) ct).
    + destruct (Qltb (ct - ttime t) (1 # 2)); [rewrite IH; reflexivity|].
      destruct (Nat.ltb 10 (S (defer_count pkg))); rewrite IH; reflexivity.
    + rewrite IH. reflexivity.
  - rewrite IH. reflexivity.
Qed.

(** The clock of [execute_route] never goes back: waiting moves it to a
    later correction instant, a delivery adds [distance / speed] with a
    non-negative distance, a deferral leaves it alone. *)
Lemma exec_loop_time_mono (g : Geography)
  (Hdist : forall a b, 0 <= get_distance g a b) (fuel : nat) :
  forall t tbl i loc, 0 < speed t ->
  ttime t <= ttime (fst (fst (fst (exec_loop g fuel t tbl i loc)))).
Proof.
  induction fuel as [|fuel IH]; intros t tbl i loc Hs; simpl; [apply Qle_refl|].
  destruct (Nat.ltb i (List.length (troute t))); [|apply Qle_refl].
  assert (Hdel : forall pkg,
    ttime t <= ttime (fst (fst (fst (
      let dist := get_distance g loc (get_address pkg (Some (ttime t))) in
      let '(t', pkg') := truck_deliver t pkg dist in
      exec_loop g fuel t' (tbl_insert tbl pkg') (S i)
        (get_address pkg' (Some (ttime t')))))))).
  { intros pkg. simpl.
    set (d := get_distance g loc (get_address pkg (Some (ttime t)))).
    eapply Qle_trans; [|apply IH; simpl; exact Hs].
    simpl. rewrite <- (Qplus_0_r (ttime t)) at 1. apply Qplus_le_r.
    apply Qle_shift_div_l; [exact Hs|]. rewrite Qmult_0_l. apply Hdist. }
  destruct (lookup tbl (nth i (troute t) 0%nat)) as [pkg|]; [|apply IH; exact Hs].
  destruct (correction_time pkg) as [ct|]; [|apply Hdel].
  destruct (Qltb (ttime t) ct) eqn:Hlt; [|apply Hdel].
  destruct (Qltb (ct - ttime t) (1 # 2)).
  - apply Qltb_true in Hlt. eapply Qle_trans; [apply Qlt_le_weak; exact Hlt|].
    exact (IH (set_time t ct) tbl i loc Hs).
  - destruct (Nat.ltb 10 (S (defer_count pkg))).
    + exact (IH t _ _ _ Hs).
    + exact (IH (set_troute t _) _ _ _ Hs).
Qed.

(** C1 (code_bug): on the input where package 9's correction is 140
    minutes away, [execute_route] defers the package ten times and on the
    eleventh encounter ([defer_count] = 11 > 10) only steps past it.  The
    branch is routing.py lines 48-51: [if pkg.defer_count > 10:] logs
    "Force delivering Package ..." and does [i += 1], with no call to
    [truck.deliver].  The package stays undelivered (status [EN_ROUTE], no
    delivery time, still in the cargo), the truck never drives (mileage 0,
    clock still 8:00), instead of being force-delivered at its stale
    address. *)
Theorem execute_route_cap_skips_package :
  let '(t, tbl) := execute_route geo_two truck_wrong_addr tbl_wrong_addr in
  option_map defer_count (lookup tbl 9) = Some 11%nat /\
  option_map status (lookup tbl 9) = Some EN_ROUTE /\
  option_map delivery_time (lookup tbl 9) = Some None /\
  troute t = [9%nat] /\ cargo t = [9%nat] /\
  Qeq_bool (mileage t) 0 = true /\ Qeq_bool (ttime t) START_TIME = true.
Proof.
  vm_compute. repeat split.
Qed.


(* ------------------------------------------------------------------ *)
(** ** Claim C2: group resolution *)

(** C2 (code_bug): with two disjoint pairs (1 with 2, 3 with 4),
    [resolve_package_groups] returns only the component found last,
    [{3, 4}].  In utils.py the [for pid in direct_relationships:] loop
    (line 84) and [if group_set: group.append(group_set)] (lines 105-106)
    have the same four-space indentation: the append runs once, after the
    loop.  The BFS of the first iteration does find [{1, 2}], and the
    next iteration overwrites [group_set], so packages 1 and 2 take part
    in a group relation and belong to no returned group.  With no group
    relation at all it raises (UnboundLocalError, [None] here). *)
Theorem resolve_package_groups_keeps_last_component :
  resolve_package_groups tbl_two_pairs = Some [[3%nat; 4%nat]] /\
  snd (bfs (bfs_fuel (build_relationships tbl_two_pairs))
           (build_relationships tbl_two_pairs) [1%nat] [] []) = [1%nat; 2%nat] /\
  group_with (lookup_pkg tbl_two_pairs 1) = [2%nat] /\
  resolve_package_groups [(1%nat, pkg_grouped 1 [])] = None.
Proof. vm_compute. repeat split. Qed.

(* ------------------------------------------------------------------ *)
(** ** Claim C3: the feasibility check *)




Lemma load_by_proximity_full (t1 t2 : Truck) (std : list nat) (tbl : table)
  (g : Geography) (k1 k2 : nat) :
  has_capacity t1 = false -> has_capacity t2 = false ->
  load_by_proximity t1 t2 std tbl g k1 k2 = (t1, t2, tbl).
Proof.
  intros H1 H2. unfold load_by_proximity. destruct std as [|p ps]; [reflexivity|].
  generalize (p :: ps) as l. intro l. induction l as [|x r IH]; [reflexivity|].
  cbn [fold_left].
  destruct (mem x (cargo t1) || mem x (cargo t2)); [exact IH|].
  destruct (lookup tbl x); [|exact IH].
  rewrite H1, H2, !andb_false_r. exact IH.
Qed.

(** C3 (code_bug): a trial in which a package due at 10:30 is never
    delivered passes [constraints_satisfied].  On [tbl_overflow] both
    trucks are full after loading (truck 1 with its sixteen exclusive
    packages, truck 2 with the sixteen delayed ones), so seventeen packages
    wait for [deliver_remaining_packages], which loads the first sixteen
    of them and leaves package 39 at the hub with no delivery instant.
    The check's [pkg.deadline_time and pkg.delivery_time and ...] skips a
    package without a delivery instant, so the trial is reported feasible
    whatever the proximity draws. *)
Theorem run_simulation_overflow_feasible (k1 k2 : nat) :
  match run_simulation tbl_overflow geo_split k1 k2 with
  | Some (tbl, t1, t2) =>
      constraints_satisfied tbl [t1; t2] = true /\
      deadline_time (lookup_pkg tbl 39) = Some DEADLINE_1030 /\
      status (lookup_pkg tbl 39) = AT_HUB /\
      delivery_time (lookup_pkg tbl 39) = None
  | None => False
  end.
Proof.
  assert (H : match load_trucks tbl_overflow with
              | Some (t1, t2, tbl, _) =>
                  has_capacity t1 = false /\ has_capacity t2 = false /\
                  let '(tbl, t1, t2) := execute_trial geo_split t1 t2 tbl in
                  constraints_satisfied tbl [t1; t2] = true /\
                  deadline_time (lookup_pkg tbl 39) = Some DEADLINE_1030 /\
                  status (lookup_pkg tbl 39) = AT_HUB /\
                  delivery_time (lookup_pkg tbl 39) = None
              | None => False
              end) by (vm_compute; repeat split).
  unfold run_simulation.
  destruct (load_trucks tbl_overflow) as [[[[t1 t2] tbl] std]|]; [|contradiction].
  destruct H as [H1 [H2 H]].
  rewrite (load_by_proximity_full t1 t2 std tbl geo_split k1 k2 H1 H2).
  destruct (execute_trial geo_split t1 t2 tbl) as [[tbl' t1'] t2'].
  exact H.
Qed.


(* ------------------------------------------------------------------ *)
(** ** Claim C5: the exact search *)

Lemma picks_perm (l : list nat) : forall x r,
  In (x, r) (picks l) -> Permutation l (x :: r).
Proof.
  induction l as [|y l IH]; simpl; intros x r Hin; [contradiction|].
  destruct Hin as [Heq|Hin].
  - injection Heq as <- <-. apply Permutation_refl.
  - apply in_map_iff in Hin. destruct Hin as [[z r'] [Heq Hin]].
    injection Heq as <- <-.
    eapply perm_trans; [apply perm_skip, (IH _ _ Hin)|]. apply perm_swap.
Qed.

Lemma picks_mid (x : nat) (l2 : list nat) : forall l1,
  In (x, l1 ++ l2) (picks (l1 ++ x :: l2)).
Proof.
  induction l1 as [|y l1 IH]; simpl; [left; reflexivity|].
  right. apply in_map_iff. exists (x, l1 ++ l2). split; [reflexivity|exact IH].
Qed.

Lemma permutations_n_sound (n : nat) : forall l p,
  List.length l = n -> In p (permutations_n n l) -> Permutation p l.
Proof.
  induction n as [|n IH]; intros l p Hlen Hin; simpl in Hin.
  - destruct l; [|discriminate]. destruct Hin as [<-|[]]. apply perm_nil.
  - apply in_flat_map in Hin. destruct Hin as [[x r] [Hpick Hin]].
    apply in_map_iff in Hin. destruct Hin as [q [<- Hq]].
    pose proof (picks_perm l x r Hpick) as Hp.
    apply Permutation_length in Hp as Hl. simpl in Hl.
    eapply perm_trans; [apply perm_skip, (IH r q); [lia|exact Hq]|].
    apply Permutation_sym. exact Hp.
Qed.

Lemma permutations_n_complete (n : nat) : forall l p,
  List.length l = n -> Permutation p l -> In p (permutations_n n l).
Proof.
  induction n as [|n IH]; intros l p Hlen Hp; simpl.
  - destruct l; [|discriminate]. apply Permutation_sym, Permutation_nil in Hp. left. symmetry. exact Hp.
  - destruct p as [|x p'].
    + apply Permutation_length in Hp. simpl in Hp. lia.
    + assert (Hx : In x l) by (apply (Permutation_in x Hp); left; reflexivity).
      apply in_split in Hx. destruct Hx as [l1 [l2 ->]].
      apply in_flat_map. exists (x, l1 ++ l2). split; [apply picks_mid|].
      apply (List.in_map (cons x)). apply IH.
      * rewrite length_app in *. simpl in Hlen. lia.
      * eapply Permutation_cons_app_inv. exact Hp.
Qed.

Lemma in_permutations (l p : list nat) :
  In p (permutations l) <-> Permutation p l.
Proof.
  unfold permutations. split.
  - apply permutations_n_sound. reflexivity.
  - apply permutations_n_complete. reflexivity.
Qed.

Lemma perm_eval_spec (g : Geography) (tbl : table) (spd : Q) (perm : list nat) :
  forall tc loc total,
  fst (perm_eval g tbl spd perm tc loc total)
    = forallb (arrival_ok tbl) (arrivals g tbl spd tc loc perm) /\
  (fst (perm_eval g tbl spd perm tc loc total) = true ->
   snd (perm_eval g tbl spd perm tc loc total)
     == total + fold_right (fun '(_, dist, _) acc => dist + acc) 0
                  (arrivals g tbl spd tc loc perm)).
Proof.
  induction perm as [|pid r IH]; intros tc loc total; simpl.
  - split; [reflexivity|intros _; ring].
  - set (pkg := lookup_pkg tbl pid).
    set (dist := get_distance g loc (get_address pkg (Some tc))).
    set (arr := tc + dist / spd).
    destruct (IH arr (get_address pkg (Some arr)) (total + dist)) as [IH1 IH2].
    destruct (deadline_time pkg) as [d|] eqn:Hd.
    + destruct (Qltb d arr) eqn:Hlt.
      * assert (Hle : Qle_bool arr d = false).
        { apply Qltb_true in Hlt. destruct (Qle_bool arr d) eqn:E; [|reflexivity].
          apply Qle_bool_iff in E. exfalso. apply (Qlt_not_le d arr); assumption. }
        simpl. rewrite Hle. split; [reflexivity|discriminate].
      * assert (Hle : Qle_bool arr d = true).
        { apply Qltb_false in Hlt. apply Qle_bool_iff. exact Hlt. }
        rewrite Hle. simpl. split; [exact IH1|].
        intros H. rewrite (IH2 H). ring.
    + simpl. split; [exact IH1|]. intros H. rewrite (IH2 H). ring.
Qed.

Lemma perm_eval_feasible (g : Geography) (tbl : table) (t : Truck) (p : list nat) :
  fst (perm_eval g tbl (speed t) p (ttime t) "hub" 0) = time_feasible g tbl t p /\
  (time_feasible g tbl t p = true ->
   snd (perm_eval g tbl (speed t) p (ttime t) "hub" 0) == directed_distance g tbl t p).
Proof.
  destruct (perm_eval_spec g tbl (speed t) p (ttime t) "hub" 0) as [H1 H2].
  unfold time_feasible, directed_distance.
  split; [exact H1|].
  intros H. rewrite <- H1 in H. rewrite (H2 H). ring.
Qed.

Section Search.
Variables (g : Geography) (tbl : table) (t : Truck) (deadlines : list nat).

Lemma perm_step_inv (acc : option (list nat) * option Q) (p : list nat) :
  Permutation p deadlines -> search_inv g tbl t deadlines acc ->
  search_inv g tbl t deadlines (perm_step g tbl t acc p).
Proof.
  intros Hp Hinv. unfold perm_step.
  destruct (perm_eval_feasible g tbl t p) as [F1 F2].
  destruct (perm_eval g tbl (speed t) p (ttime t) "hub" 0) as [ok tot] eqn:E.
  simpl in F1, F2.
  destruct (ok && _) eqn:Hc; [|exact Hinv].
  apply andb_true_iff in Hc. destruct Hc as [Hok _]. subst ok.
  right. exists p, tot. repeat split; auto.
Qed.

Lemma perm_step_score (acc : option (list nat) * option Q) (p : list nat) (s0 : Q) :
  snd acc = Some s0 ->
  exists s, snd (perm_step g tbl t acc p) = Some s /\ s <= s0.
Proof.
  intros Hs. unfold perm_step.
  destruct (perm_eval g tbl (speed t) p (ttime t) "hub" 0) as [ok tot].
  rewrite Hs. destruct (ok && Qltb tot s0) eqn:Hc.
  - exists tot. split; [reflexivity|].
    apply andb_true_iff in Hc. destruct Hc as [_ Hc].
    apply Qlt_le_weak. apply Qltb_true. exact Hc.
  - exists s0. split; [exact Hs|apply Qle_refl].
Qed.

Lemma perm_step_feasible (acc : option (list nat) * option Q) (p : list nat) :
  time_feasible g tbl t p = true ->
  exists s, snd (perm_step g tbl t acc p) = Some s /\ s <= directed_distance g tbl t p.
Proof.
  intros Hf. destruct (perm_eval_feasible g tbl t p) as [F1 F2].
  specialize (F2 Hf). rewrite Hf in F1. unfold perm_step.
  destruct (perm_eval g tbl (speed t) p (ttime t) "hub" 0) as [ok tot].
  simpl in F1, F2. subst ok. simpl.
  destruct (snd acc) as [s|] eqn:Hs.
  - destruct (Qltb tot s) eqn:Hlt.
    + exists tot. split; [reflexivity|]. rewrite F2. apply Qle_refl.
    + exists s. split; [exact Hs|]. apply Qltb_false in Hlt. rewrite <- F2. exact Hlt.
  - exists tot. split; [reflexivity|]. rewrite F2. apply Qle_refl.
Qed.

Lemma fold_score_mono (L : list (list nat)) : forall acc s0,
  snd acc = Some s0 ->
  exists s, snd (fold_left (perm_step g tbl t) L acc) = Some s /\ s <= s0.
Proof.
  induction L as [|p L IH]; intros acc s0 Hs; simpl.
  - exists s0. split; [exact Hs|apply Qle_refl].
  - destruct (perm_step_score acc p s0 Hs) as [s1 [Hs1 Hle1]].
    destruct (IH _ _ Hs1) as [s2 [Hs2 Hle2]].
    exists s2. split; [exact Hs2|]. eapply Qle_trans; eassumption.
Qed.

Lemma fold_search (L : list (list nat)) : forall acc,
  (forall p, In p L -> Permutation p deadlines) ->
  search_inv g tbl t deadlines acc ->
  search_inv g tbl t deadlines (fold_left (perm_step g tbl t) L acc) /\
  (forall p, In p L -> time_feasible g tbl t p = true ->
     exists s, snd (fold_left (perm_step g tbl t) L acc) = Some s /\
               s <= directed_distance g tbl t p) /\
  (acc = (None, None) -> (forall p, In p L -> time_feasible g tbl t p = false) ->
     fold_left (perm_step g tbl t) L acc = (None, None)).
Proof.
  induction L as [|p L IH]; intros acc HL Hinv; simpl.
  - split; [exact Hinv|]. split; [intros p []|intros H _; exact H].
  - assert (HL' : forall q, In q L -> Permutation q deadlines) by (intros; apply HL; right; assumption).
    pose proof (perm_step_inv acc p (HL p (or_introl eq_refl)) Hinv) as Hinv'.
    destruct (IH _ HL' Hinv') as [I1 [I2 I3]].
    split; [exact I1|]. split.
    + intros q [<-|Hq] Hf.
      * destruct (perm_step_feasible acc p Hf) as [s1 [Hs1 Hle1]].
        destruct (fold_score_mono L _ _ Hs1) as [s2 [Hs2 Hle2]].
        exists s2. split; [exact Hs2|]. eapply Qle_trans; eassumption.
      * apply I2; assumption.
    + intros Hacc Hnone. apply I3; [|intros q Hq; apply Hnone; right; exact Hq].
      subst acc. unfold perm_step.
      destruct (perm_eval_feasible g tbl t p) as [F1 _].
      destruct (perm_eval g tbl (speed t) p (ttime t) "hub" 0) as [ok tot].
      simpl in F1. rewrite Hnone in F1 by (left; reflexivity). subst ok. reflexivity.
Qed.
End Search.

Lemma nn_fill_prefix (g : Geography) (tbl : table) (now : Q) (fuel : nat) :
  forall loc remaining route,
  exists rest, nn_fill g tbl now fuel loc remaining route = route ++ rest.
Proof.
  induction fuel as [|fuel IH]; intros loc remaining route; simpl.
  - exists []. rewrite app_nil_r. reflexivity.
  - destruct remaining as [|x xs]; [exists []; rewrite app_nil_r; reflexivity|].
    destruct (argmin_first _ _) as [nxt|]; [|exists []; rewrite app_nil_r; reflexivity].
    destruct (IH (get_address (lookup_pkg tbl nxt) (Some now))
                 (remove_first nxt (x :: xs)) (route ++ [nxt])) as [rest Hr].
    exists (nxt :: rest). rewrite Hr, <- app_assoc. reflexivity.
Qed.

(** C5: for a non-empty deadline subset (both callers guard the search
    with [if deadlines and len(deadlines) <= 5]; the size bound is not
    needed here), if some ordering of it meets every deadline (arrival
    instants from the truck's clock at its speed), [optimize_with_permutations]
    returns a route whose prefix is an ordering of the subset that meets
    every deadline and whose directed distance is at most that of every
    other such ordering; if no ordering meets every deadline it returns
    [None]. *)
Theorem optimize_with_permutations_optimal (g : Geography) (tbl : table) (t : Truck)
  (deadlines others : list nat) (Hne : deadlines <> []) :
  ((forall p, Permutation p deadlines -> time_feasible g tbl t p = false) ->
   optimize_with_permutations g tbl t deadlines others = None) /\
  ((exists p, Permutation p deadlines /\ time_feasible g tbl t p = true) ->
   exists best rest,
     optimize_with_permutations g tbl t deadlines others = Some (best ++ rest) /\
     Permutation best deadlines /\ time_feasible g tbl t best = true /\
     forall p, Permutation p deadlines -> time_feasible g tbl t p = true ->
       directed_distance g tbl t best <= directed_distance g tbl t p).
Proof.
  assert (HL : forall p, In p (permutations deadlines) -> Permutation p deadlines)
    by (intros p; apply in_permutations).
  destruct (fold_search g tbl t deadlines (permutations deadlines) (None, None) HL
              (or_introl eq_refl)) as [Hinv [Hmin Hnone]].
  unfold optimize_with_permutations, perm_search.
  split.
  - intros Hall. rewrite Hnone; [reflexivity|reflexivity|].
    intros p Hp. apply Hall. apply in_permutations. exact Hp.
  - intros [p0 [Hp0 Hf0]].
    destruct Hinv as [Hnil|[b [s [Hacc [Hfb [Hsb Hpb]]]]]].
    + exfalso.
      destruct (Hmin p0 (proj2 (in_permutations _ _) Hp0) Hf0) as [s [Hs _]].
      rewrite Hnil in Hs. discriminate.
    + rewrite Hacc. simpl.
      assert (Hb : b <> []).
      { intros ->. apply Permutation_nil in Hpb. apply Hne. exact Hpb. }
      destruct b as [|x b']; [contradiction|].
      match goal with |- context [nn_fill g tbl ?now ?f ?loc ?rem ?r] =>
        destruct (nn_fill_prefix g tbl now f loc rem r) as [rest Hrest] end.
      exists (x :: b'), rest. rewrite Hrest.
      split; [reflexivity|]. split; [exact Hpb|]. split; [exact Hfb|].
      intros p Hp Hf.
      destruct (Hmin p (proj2 (in_permutations _ _) Hp) Hf) as [s' [Hs' Hle]].
      rewrite Hacc in Hs'. simpl in Hs'. injection Hs' as <-.
      rewrite <- Hsb. exact Hle.
Qed.

Lemma optimize_with_permutations_optimal_witness :
  exists best rest,
    optimize_with_permutations geo_line tbl_line (new_truck 1 START_TIME 16)
      [1%nat; 2%nat; 3%nat] [4%nat] = Some (best ++ rest) /\
    Permutation best [1%nat; 2%nat; 3%nat] /\
    time_feasible geo_line tbl_line (new_truck 1 START_TIME 16) best = true /\
    forall p, Permutation p [1%nat; 2%nat; 3%nat] ->
      time_feasible geo_line tbl_line (new_truck 1 START_TIME 16) p = true ->
      directed_distance geo_line tbl_line (new_truck 1 START_TIME 16) best
        <= directed_distance geo_line tbl_line (new_truck 1 START_TIME 16) p.
Proof.
  apply (optimize_with_permutations_optimal geo_line tbl_line (new_truck 1 START_TIME 16)
           [1%nat; 2%nat; 3%nat] [4%nat]); [discriminate|].
  exists [2%nat; 3%nat; 1%nat]. split; [|vm_compute; reflexivity].
  apply (Permutation_trans (l' := [2%nat; 1%nat; 3%nat])); [apply perm_skip, perm_swap|apply perm_swap].
Defined.

(* ------------------------------------------------------------------ *)
(** ** Claim C4: the 2-opt refinement *)

Lemma mem_true (x : nat) (l : list nat) : mem x l = true <-> In x l.
Proof.
  unfold mem. rewrite existsb_exists. split.
  - intros [y [Hy Heq]]. apply Nat.eqb_eq in Heq. subst y. exact Hy.
  - intros Hx. exists x. split; [exact Hx|apply Nat.eqb_refl].
Qed.

Lemma mem_rev (x : nat) (l : list nat) : mem x (rev l) = mem x l.
Proof.
  destruct (mem x l) eqn:E.
  - apply mem_true in E. apply mem_true. rewrite <- in_rev. exact E.
  - destruct (mem x (rev l)) eqn:E'; [|reflexivity].
    apply mem_true in E'. rewrite <- in_rev in E'. apply mem_true in E'. congruence.
Qed.

Lemma index_of_app (x : nat) (A C : list nat) :
  index_of x (A ++ C) = if mem x A then index_of x A else (List.length A + index_of x C)%nat.
Proof.
  induction A as [|y A IH]; [reflexivity|].
  unfold mem in *. simpl. destruct (Nat.eqb x y); simpl; [reflexivity|].
  rewrite IH. destruct (existsb (Nat.eqb x) A); reflexivity.
Qed.

Lemma segment_split (best : list nat) (i j : nat) : (i <= S j)%nat ->
  best = firstn i best ++ segment best i j ++ skipn (S j) best.
Proof.
  intros H. unfold segment.
  rewrite <- (firstn_skipn i best) at 1. f_equal.
  rewrite <- (firstn_skipn (S j - i) (skipn i best)) at 1. f_equal.
  rewrite skipn_skipn. f_equal. lia.
Qed.

(** Reversing a segment that passes the deadline test moves no deadline
    package to a later first position. *)
Lemma rev_app_index (dl A S0 B : list nat) (x : nat) :
  delays_deadline dl S0 = false -> In x dl ->
  (index_of x (A ++ rev S0 ++ B) <= index_of x (A ++ S0 ++ B))%nat.
Proof.
  intros Hd Hx. rewrite !index_of_app, mem_rev, length_rev.
  destruct (mem x A); [lia|].
  destruct (mem x S0) eqn:Hm; [|lia].
  destruct (Nat.ltb (index_of x S0) (index_of x (rev S0))) eqn:Hlt.
  - exfalso.
    assert (Hex : delays_deadline dl S0 = true).
    { unfold delays_deadline. apply existsb_exists. exists x. rewrite Hm, Hlt. auto. }
    congruence.
  - apply Nat.ltb_ge in Hlt. lia.
Qed.

Lemma reverse_segment_step (dl best : list nat) (i j : nat) :
  (i <= S j)%nat -> delays_deadline dl (segment best i j) = false ->
  Permutation (reverse_segment best i j) best /\
  forall x, In x dl -> (index_of x (reverse_segment best i j) <= index_of x best)%nat.
Proof.
  intros Hij Hd. pose proof (segment_split best i j Hij) as Hb. unfold reverse_segment.
  split.
  - transitivity (firstn i best ++ segment best i j ++ skipn (S j) best).
    + apply Permutation_app_head, Permutation_app_tail, Permutation_sym, Permutation_rev.
    + rewrite <- Hb. reflexivity.
  - intros x Hx. eapply Nat.le_trans; [apply (rev_app_index dl); eassumption|].
    rewrite <- Hb. apply le_n.
Qed.

Lemma scan_j_spec (g : Geography) (tbl : table) (now : Q) (dl best : list nat)
  (bd : Q) (i : nat) (js : list nat) (nr : list nat) (nd : Q) :
  scan_j g tbl now dl best bd i js = Some (nr, nd) ->
  exists j, In j js /\ delays_deadline dl (segment best i j) = false /\
            nr = reverse_segment best i j.
Proof.
  induction js as [|j js IH]; simpl; [discriminate|].
  destruct (delays_deadline dl (segment best i j)) eqn:Hd.
  - intros H. destruct (IH H) as [j' [H1 H2]]. exists j'. split; [right; exact H1|exact H2].
  - destruct (Qltb _ bd).
    + intros H. injection H as H1 _. exists j. auto.
    + intros H. destruct (IH H) as [j' [H1 H2]]. exists j'. split; [right; exact H1|exact H2].
Qed.

Lemma scan_i_spec (g : Geography) (tbl : table) (now : Q) (dl best : list nat)
  (bd : Q) (is : list nat) (nr : list nat) (nd : Q) :
  scan_i g tbl now dl best bd is = Some (nr, nd) ->
  exists i j, (i + 2 <= j)%nat /\ delays_deadline dl (segment best i j) = false /\
              nr = reverse_segment best i j.
Proof.
  induction is as [|i is IH]; simpl; [discriminate|].
  destruct (scan_j g tbl now dl best bd i _) as [[r d]|] eqn:E.
  - intros H. injection H as H1 H2. subst r d.
    destruct (scan_j_spec _ _ _ _ _ _ _ _ _ _ E) as [j [Hj [Hd Hr]]].
    apply in_seq in Hj. exists i, j. split; [lia|split; assumption].
  - exact IH.
Qed.

Lemma two_opt_loop_spec (g : Geography) (tbl : table) (now : Q) (dl : list nat)
  (fuel : nat) : forall best bd,
  Permutation (two_opt_loop g tbl now dl fuel best bd) best /\
  forall x, In x dl ->
    (index_of x (two_opt_loop g tbl now dl fuel best bd) <= index_of x best)%nat.
Proof.
  induction fuel as [|fuel IH]; intros best bd; simpl.
  - split; [apply Permutation_refl|intros; apply le_n].
  - destruct (two_opt_pass g tbl now dl best bd) as [[nr nd]|] eqn:E.
    + unfold two_opt_pass in E.
      destruct (scan_i_spec _ _ _ _ _ _ _ _ _ E) as [i [j [Hij [Hd Hr]]]]. subst nr.
      destruct (reverse_segment_step dl best i j ltac:(lia) Hd) as [P0 I0].
      destruct (IH (reverse_segment best i j) nd) as [P1 I1].
      split; [eapply perm_trans; eassumption|].
      intros x Hx. eapply Nat.le_trans; [apply I1; exact Hx|apply I0; exact Hx].
    + split; [apply Permutation_refl|intros; apply le_n].
Qed.

(** C4 (amended): [apply_2opt] returns a rearrangement of its input route
    in which every package of the route whose deadline is at or before
    10:00 has a (first) position no later than in the input route. *)
Theorem apply_2opt_deadline_positions (g : Geography) (tbl : table) (now : Q)
  (route : list nat) :
  Permutation (apply_2opt g tbl now route) route /\
  forall pid pkg d, In pid route -> lookup tbl pid = Some pkg ->
    deadline_time pkg = Some d -> d <= STRICT_DEADLINE_CUTOFF ->
    (index_of pid (apply_2opt g tbl now route) <= index_of pid route)%nat.
Proof.
  unfold apply_2opt. destruct (Nat.leb (List.length route) 2).
  - split; [apply Permutation_refl|intros; apply le_n].
  - destruct (two_opt_loop_spec g tbl now (deadline_packages tbl route)
                (S (fact (List.length route))) route
                (calculate_route_distance g tbl now route)) as [P I].
    split; [exact P|].
    intros pid pkg d Hin Hl Hd Hle. apply I. unfold deadline_packages.
    apply filter_In. split; [exact Hin|]. rewrite Hl, Hd. apply Qle_bool_iff. exact Hle.
Qed.

(** C4 (counterexample): package 2 is due at 9:00; 2-opt turns the route
    [1; 2; 3; 4] (6 miles) into [3; 2; 1; 4] (4 miles), and the projected
    delivery of package 2 moves from 8:03:20 to 8:10. *)
Lemma apply_2opt_delays_deadline_package :
  deadline_time (lookup_pkg tbl_star 2) = Some 9 /\
  apply_2opt geo_star tbl_star START_TIME route_star = [3%nat; 2%nat; 1%nat; 4%nat] /\
  match assoc 2 (calculate_delivery_times geo_star tbl_star START_TIME
                   (speed (new_truck 1 START_TIME 16)) route_star),
        assoc 2 (calculate_delivery_times geo_star tbl_star START_TIME
                   (speed (new_truck 1 START_TIME 16))
                   (apply_2opt geo_star tbl_star START_TIME route_star)) with
  | Some t0, Some t1 => t0 < t1
  | _, _ => False
  end.
Proof.
  split; [reflexivity|]. split; [vm_compute; reflexivity|]. vm_compute. reflexivity.
Qed.


(* ------------------------------------------------------------------ *)
(** ** Group loading ([load_group_to_truck]) *)

Lemma assoc_assoc_set {V : Type} (k k' : nat) (v : V) (l : list (nat * V)) :
  assoc k (assoc_set k' v l) = if Nat.eqb k k' then Some v else assoc k l.
Proof.
  induction l as [|[k0 v0] l IH]; simpl.
  - destruct (Nat.eqb k k'); reflexivity.
  - destruct (Nat.eqb k' k0) eqn:E1; simpl.
    + apply Nat.eqb_eq in E1. subst k0. destruct (Nat.eqb k k'); reflexivity.
    + rewrite IH. destruct (Nat.eqb k k') eqn:E2; [|reflexivity].
      apply Nat.eqb_eq in E2. subst k. rewrite E1. reflexivity.
Qed.

Lemma lookup_tbl_insert (tbl : table) (p : Package) (k : nat) :
  lookup (tbl_insert tbl p) k = if Nat.eqb k (package_id p) then Some p else lookup tbl k.
Proof. apply assoc_assoc_set. Qed.

Lemma table_keyed_insert (tbl : table) (p : Package) :
  table_keyed tbl -> table_keyed (tbl_insert tbl p).
Proof.
  intros H k q Hq. rewrite lookup_tbl_insert in Hq.
  destruct (Nat.eqb k (package_id p)) eqn:E.
  - injection Hq as <-. symmetry. apply Nat.eqb_eq. exact E.
  - apply H. exact Hq.
Qed.

(** One step of the loop changes the truck's cargo by at most the member
    itself, and the table at most at the member's entry. *)
Lemma group_load_step_frame (t : Truck) (tbl : table) (pid : nat) :
  table_keyed tbl ->
  let '(t', tbl') := group_load_step (t, tbl) pid in
  table_keyed tbl' /\ truck_id t' = truck_id t /\ capacity t' = capacity t /\
  (cargo t' = cargo t \/ cargo t' = cargo t ++ [pid]) /\
  (forall x, x <> pid -> lookup tbl' x = lookup tbl x).
Proof.
  intros Hk. unfold group_load_step.
  destruct (mem pid (cargo t)); [repeat split; auto|].
  destruct (lookup tbl pid) as [pkg|] eqn:Hl; [|repeat split; auto].
  pose proof (Hk _ _ Hl) as Hid.
  unfold load_package. destruct (Nat.leb (capacity t) (List.length (cargo t))).
  - repeat split; auto. apply table_keyed_insert. exact Hk.
    intros x Hx. rewrite lookup_tbl_insert, Hid.
    destruct (Nat.eqb x pid) eqn:E; [apply Nat.eqb_eq in E; contradiction|reflexivity].
  - repeat split; auto.
    + apply table_keyed_insert. exact Hk.
    + simpl. right. rewrite Hid. reflexivity.
    + intros x Hx. rewrite lookup_tbl_insert. simpl. rewrite Hid.
      destruct (Nat.eqb x pid) eqn:E; [apply Nat.eqb_eq in E; contradiction|reflexivity].
Qed.

(** Over the whole loop: the cargo only grows, by at most one package per
    member, and entries of packages already on board are left alone. *)
Lemma group_load_frame (group : list nat) : forall t tbl,
  table_keyed tbl ->
  let '(t', tbl') := fold_left group_load_step group (t, tbl) in
  table_keyed tbl' /\ truck_id t' = truck_id t /\ capacity t' = capacity t /\
  (forall x, In x (cargo t) -> In x (cargo t')) /\
  (forall x, In x (cargo t) -> lookup tbl' x = lookup tbl x).
Proof.
  induction group as [|pid group IH]; intros t tbl Hk.
  - simpl. repeat split; auto.
  - change (fold_left group_load_step (pid :: group) (t, tbl))
      with (fold_left group_load_step group (group_load_step (t, tbl) pid)).
    pose proof (group_load_step_frame t tbl pid Hk) as Hs.
    destruct (group_load_step (t, tbl) pid) as [t1 tbl1] eqn:E1.
    destruct Hs as [Hk1 [Hid1 [Hcap1 [Hc1 Hl1]]]].
    specialize (IH t1 tbl1 Hk1).
    destruct (fold_left group_load_step group (t1, tbl1)) as [t2 tbl2].
    destruct IH as [Hk2 [Hid2 [Hcap2 [Hc2 Hl2]]]].
    cbv beta iota.
    split; [exact Hk2|]. split; [congruence|]. split; [congruence|]. split.
    + intros x Hx. apply Hc2. destruct Hc1 as [-> | ->]; [exact Hx|].
      apply in_or_app. left. exact Hx.
    + intros x Hx.
      assert (Hx1 : In x (cargo t1))
        by (destruct Hc1 as [-> | ->]; [exact Hx|apply in_or_app; left; exact Hx]).
      rewrite (Hl2 x Hx1).
      unfold group_load_step in E1.
      destruct (mem pid (cargo t)) eqn:Hm; [congruence|].
      apply Hl1. intros ->. apply mem_true in Hx. congruence.
Qed.

Lemma group_load_step_loads (t : Truck) (tbl : table) (pid : nat) (pkg : Package) :
  table_keyed tbl -> ~ In pid (cargo t) -> lookup tbl pid = Some pkg ->
  (List.length (cargo t) < capacity t)%nat ->
  let '(t', tbl') := group_load_step (t, tbl) pid in
  cargo t' = cargo t ++ [pid] /\
  lookup tbl' pid = Some (pkg_pickup pkg (ttime t) (truck_id t)).
Proof.
  intros Hk Hn Hl Hlt. unfold group_load_step.
  destruct (mem pid (cargo t)) eqn:Hm; [apply mem_true in Hm; contradiction|].
  rewrite Hl. pose proof (Hk _ _ Hl) as Hid.
  unfold load_package.
  destruct (Nat.leb (capacity t) (List.length (cargo t))) eqn:Hc;
    [apply Nat.leb_le in Hc; lia|].
  simpl. rewrite Hid, lookup_tbl_insert. simpl. rewrite Hid, Nat.eqb_refl.
  split; reflexivity.
Qed.

Lemma group_load_all (group : list nat) : forall t tbl,
  table_keyed tbl ->
  (List.length (cargo t) + List.length group <= capacity t)%nat ->
  let '(t', tbl') := fold_left group_load_step group (t, tbl) in
  forall pid, In pid group -> lookup tbl pid <> None ->
    In pid (cargo t') /\
    (~ In pid (cargo t) ->
     exists p, lookup tbl' pid = Some p /\ truck_assigned p = Some (truck_id t)).
Proof.
  induction group as [|a group IH]; intros t tbl Hk Hcap; [simpl; intros pid []|].
  change (fold_left group_load_step (a :: group) (t, tbl))
    with (fold_left group_load_step group (group_load_step (t, tbl) a)).
  pose proof (group_load_step_frame t tbl a Hk) as Hs.
  destruct (group_load_step (t, tbl) a) as [t1 tbl1] eqn:E1.
  destruct Hs as [Hk1 [Hid1 [Hcap1 [Hc1 Hl1]]]].
  assert (Hcap' : (List.length (cargo t1) + List.length group <= capacity t1)%nat).
  { rewrite Hcap1. destruct Hc1 as [-> | ->]; [simpl in Hcap; lia|].
    rewrite length_app. simpl in *. lia. }
  pose proof (IH t1 tbl1 Hk1 Hcap') as IHg.
  pose proof (group_load_frame group t1 tbl1 Hk1) as Hf.
  destruct (fold_left group_load_step group (t1, tbl1)) as [t2 tbl2].
  destruct Hf as [_ [Hid2 [_ [Hc2 Hl2]]]].
  cbv beta iota. intros pid Hin Hnone.
  destruct (Nat.eq_dec pid a) as [->|Hne].
  - destruct (in_dec Nat.eq_dec a (cargo t)) as [Hin_c|Hout].
    + split; [|intros Hn; contradiction].
      apply Hc2. destruct Hc1 as [-> | ->]; [exact Hin_c|apply in_or_app; left; exact Hin_c].
    + destruct (lookup tbl a) as [pkg|] eqn:Hl; [|contradiction].
      assert (Hlt : (List.length (cargo t) < capacity t)%nat) by (simpl in Hcap; lia).
      pose proof (group_load_step_loads t tbl a pkg Hk Hout Hl Hlt) as Hld.
      rewrite E1 in Hld. destruct Hld as [Hc Hla].
      assert (Ha1 : In a (cargo t1)) by (rewrite Hc; apply in_or_app; right; left; reflexivity).
      split; [apply Hc2; exact Ha1|].
      intros _. exists (pkg_pickup pkg (ttime t) (truck_id t)).
      split; [rewrite (Hl2 a Ha1); exact Hla|reflexivity].
  - destruct Hin as [Heq|Hin]; [symmetry in Heq; contradiction|].
    rewrite <- (Hl1 pid Hne) in Hnone.
    destruct (IHg pid Hin Hnone) as [Hc Ha]. split; [exact Hc|].
    intros Hn. rewrite <- Hid1. apply Ha.
    destruct Hc1 as [-> | ->]; [exact Hn|].
    intros Hin'. apply in_app_or in Hin'. destruct Hin' as [H|[H|[]]]; [contradiction|].
    symmetry in H. contradiction.
Qed.

(** X13: [load_group_to_truck] is all or nothing.  When the group
    fits ([len(cargo) + len(group) <= capacity]) every member present in the
    table ends up in the truck's cargo, and every member that was not on
    board already is assigned to that truck; otherwise neither the truck
    nor the table changes.  (Later loading steps may assign a member to
    another truck, and the feasibility check does not look at groups.) *)
Theorem load_group_to_truck_all_or_nothing (t : Truck) (group : list nat) (tbl : table)
  (Hk : table_keyed tbl) :
  let '(t', tbl') := load_group_to_truck t group tbl in
  ((List.length (cargo t) + List.length group <= capacity t)%nat ->
   forall pid, In pid group -> lookup tbl pid <> None ->
     In pid (cargo t') /\
     (~ In pid (cargo t) ->
      exists p, lookup tbl' pid = Some p /\ truck_assigned p = Some (truck_id t))) /\
  (~ (List.length (cargo t) + List.length group <= capacity t)%nat ->
   t' = t /\ tbl' = tbl).
Proof.
  unfold load_group_to_truck.
  destruct (Nat.leb (List.length (cargo t) + List.length group) (capacity t)) eqn:Hle.
  - apply Nat.leb_le in Hle.
    pose proof (group_load_all group t tbl Hk Hle) as Hall.
    destruct (fold_left group_load_step group (t, tbl)) as [t' tbl'].
    split; [intros _; exact Hall|intros Hn; contradiction].
  - apply Nat.leb_gt in Hle. split; [intros H; lia|intros _; split; reflexivity].
Qed.

Lemma load_group_to_truck_all_or_nothing_witness :
  let '(t', tbl') := load_group_to_truck (new_truck 1 START_TIME 16) [1%nat; 2%nat] tbl_split in
  ((List.length (cargo (new_truck 1 START_TIME 16)) + List.length [1%nat; 2%nat]
      <= capacity (new_truck 1 START_TIME 16))%nat ->
   forall pid, In pid [1%nat; 2%nat] -> lookup tbl_split pid <> None ->
     In pid (cargo t') /\
     (~ In pid (cargo (new_truck 1 START_TIME 16)) ->
      exists p, lookup tbl' pid = Some p /\
                truck_assigned p = Some (truck_id (new_truck 1 START_TIME 16)))) /\
  (~ (List.length (cargo (new_truck 1 START_TIME 16)) + List.length [1%nat; 2%nat]
        <= capacity (new_truck 1 START_TIME 16))%nat ->
   t' = new_truck 1 START_TIME 16 /\ tbl' = tbl_split).
Proof.
  apply (load_group_to_truck_all_or_nothing (new_truck 1 START_TIME 16) [1%nat; 2%nat] tbl_split).
  intros k p Hp. unfold tbl_split, lookup in Hp. simpl in Hp.
  destruct k as [|[|[|k]]]; simpl in Hp; try discriminate; injection Hp as <-; reflexivity.
Defined.

(** Why the atomicity theorem below asks that no member of the group be
    delayed: on [tbl_split], where package 2 of the group reaches the depot
    at 9:05, the critical-group step puts both members on truck 1, then
    [load_delayed_packages] loads package 2 again on truck 2, which
    overwrites its assigned truck.  The trial passes
    [constraints_satisfied] with the group split between trucks 1 and 2. *)
Lemma run_simulation_splits_group :
  resolve_package_groups tbl_split = Some [[1%nat; 2%nat]] /\
  match run_simulation tbl_split geo_split 0 0 with
  | Some (tbl', t1, t2) =>
      constraints_satisfied tbl' [t1; t2] = true /\
      truck_assigned (lookup_pkg tbl' 1) = Some 1%nat /\
      truck_assigned (lookup_pkg tbl' 2) = Some 2%nat
  | None => False
  end.
Proof.
  split; [vm_compute; reflexivity|]. vm_compute. repeat split.
Qed.

(* ------------------------------------------------------------------ *)
(** ** Claim C7: determinism *)

Lemma calculate_center_single (tbl : table) (cs : list nat) (k k' : nat) :
  single_address tbl cs = true ->
  calculate_center cs tbl k = calculate_center cs tbl k'.
Proof.
  destruct cs as [|c r]; [reflexivity|]. intros H. unfold single_address in H.
  assert (Hall : forall x, In x (c :: r) ->
                 address (lookup_pkg tbl x) = address (lookup_pkg tbl c)).
  { intros x Hx. rewrite forallb_forall in H. apply String.eqb_eq. apply H. exact Hx. }
  unfold calculate_center. f_equal.
  transitivity (address (lookup_pkg tbl c)); [|symmetry];
    apply Hall; apply nth_In; apply Nat.mod_upper_bound; simpl; lia.
Qed.

(** C7 (amended): a trial is a function of the table, the geography and
    the two draws of [random.choice] in [calculate_center].  When no
    package is left for [load_by_proximity], or the packages on each truck
    share one address at that point, every pair of draws gives the same
    trial (assignments, routes, delivery times, mileage). *)
Theorem run_simulation_draws_irrelevant (tbl : table) (g : Geography)
  (k1 k2 k1' k2' : nat)
  (H : match load_trucks tbl with
       | Some (t1, t2, tbl1, std) =>
           std = [] \/
           (single_address tbl1 (cargo t1) = true /\ single_address tbl1 (cargo t2) = true)
       | None => True
       end) :
  run_simulation tbl g k1 k2 = run_simulation tbl g k1' k2'.
Proof.
  unfold run_simulation.
  destruct (load_trucks tbl) as [[[[t1 t2] tbl1] std]|]; [|reflexivity].
  assert (Hp : load_by_proximity t1 t2 std tbl1 g k1 k2 = load_by_proximity t1 t2 std tbl1 g k1' k2').
  { destruct H as [->|[H1 H2]]; [reflexivity|].
    unfold load_by_proximity. destruct std; [reflexivity|].
    rewrite (calculate_center_single tbl1 (cargo t1) k1 k1' H1).
    rewrite (calculate_center_single tbl1 (cargo t2) k2 k2' H2).
    reflexivity. }
  rewrite Hp. reflexivity.
Qed.

Lemma run_simulation_draws_irrelevant_witness :
  run_simulation tbl_one_centre geo_choice 0 0 = run_simulation tbl_one_centre geo_choice 1 0.
Proof.
  apply (run_simulation_draws_irrelevant tbl_one_centre geo_choice 0 0 1 0).
  vm_compute. right. split; reflexivity.
Defined.

(** C7 (counterexample): truck 1 holds packages 1 ("a") and 2 ("b") when
    the unconstrained package 4 ("b") is placed.  If the draw picks
    package 1 as truck 1's centre, package 4 goes to truck 2 (6 miles for
    truck 2); if it picks package 2, package 4 goes to truck 1 (2 miles
    for truck 2). *)
Lemma run_simulation_depends_on_draw :
  match run_simulation tbl_choice geo_choice 0 0, run_simulation tbl_choice geo_choice 1 0 with
  | Some (tbl_a, _, t2_a), Some (tbl_b, _, t2_b) =>
      truck_assigned (lookup_pkg tbl_a 4) = Some 2%nat /\
      truck_assigned (lookup_pkg tbl_b 4) = Some 1%nat /\
      mileage t2_a == 6 /\ mileage t2_b == 2
  | _, _ => False
  end.
Proof.
  vm_compute. repeat split.
Qed.

(* ------------------------------------------------------------------ *)
(** ** The bucketed [HashTable] *)

Lemma replace_nth_length {A : Type} (i : nat) (x : A) (l : list A) :
  List.length (replace_nth i x l) = List.length l.
Proof.
  revert i; induction l as [|y r IH]; intros [|j]; simpl; auto.
Qed.

Lemma nth_error_replace_nth {A : Type} (i j : nat) (x : A) (l : list A) :
  (i < List.length l)%nat ->
  nth_error (replace_nth i x l) j = if Nat.eqb i j then Some x else nth_error l j.
Proof.
  revert i j; induction l as [|y r IH]; intros i j Hi; simpl in Hi; [lia|].
  destruct i as [|i], j as [|j]; simpl; auto.
  apply IH; lia.
Qed.

Lemma replace_nth_middle {A : Type} (l1 l2 : list A) (a x : A) :
  replace_nth (List.length l1) x (l1 ++ a :: l2) = l1 ++ x :: l2.
Proof. induction l1 as [|y r IH]; simpl; congruence. Qed.

Lemma assoc_none_iff {V : Type} (k : nat) (b : list (nat * V)) :
  assoc k b = None <-> ~ In k (map fst b).
Proof.
  induction b as [|[k' v'] r IH]; simpl; [tauto|].
  destruct (Nat.eqb k k') eqn:E.
  - apply Nat.eqb_eq in E. subst. split; [discriminate|]. intro H; exfalso; auto.
  - apply Nat.eqb_neq in E. rewrite IH. split; intros H H'.
    + destruct H' as [H'|H']; [congruence|]. exact (H H').
    + apply H. right. exact H'.
Qed.

Lemma assoc_in {V : Type} (k : nat) (v : V) (b : list (nat * V)) :
  assoc k b = Some v -> In (k, v) b.
Proof.
  induction b as [|[k' v'] r IH]; simpl; [discriminate|].
  destruct (Nat.eqb k k') eqn:E; intro H.
  - apply Nat.eqb_eq in E; inversion H; subst; auto.
  - auto.
Qed.

Lemma assoc_set_fst {V : Type} (k : nat) (v : V) (b : list (nat * V)) :
  map fst (assoc_set k v b) =
  match assoc k b with Some _ => map fst b | None => map fst b ++ [k] end.
Proof.
  induction b as [|[k' v'] r IH]; simpl; [reflexivity|].
  destruct (Nat.eqb k k'); simpl; [reflexivity|].
  rewrite IH. destruct (assoc k r); reflexivity.
Qed.

Lemma assoc_set_in {V : Type} (k k' : nat) (v v' : V) (b : list (nat * V)) :
  In (k', v') (assoc_set k v b) -> In (k', v') b \/ (k' = k /\ v' = v).
Proof.
  induction b as [|[k0 v0] r IH]; simpl.
  - intros [H|[]]; inversion H; auto.
  - destruct (Nat.eqb k k0) eqn:E; simpl.
    + apply Nat.eqb_eq in E; subst.
      intros [H|H]; [inversion H; subst; auto | auto].
    + intros [H|H]; [auto|]. destruct (IH H); auto.
Qed.

Lemma NoDup_snoc (x : nat) (l : list nat) :
  NoDup l -> ~ In x l -> NoDup (l ++ [x]).
Proof.
  intros Hl Hx.
  apply Permutation_NoDup with (x :: l).
  - apply Permutation_cons_append.
  - constructor; assumption.
Qed.

Lemma assoc_set_nodup {V : Type} (k : nat) (v : V) (b : list (nat * V)) :
  NoDup (map fst b) -> NoDup (map fst (assoc_set k v b)).
Proof.
  intro H. rewrite assoc_set_fst.
  destruct (assoc k b) eqn:E; [assumption|].
  apply NoDup_snoc; [assumption|]. apply assoc_none_iff; assumption.
Qed.

Lemma assoc_del_in {V : Type} (k k' : nat) (v : V) (b : list (nat * V)) :
  In (k', v) (assoc_del k b) -> In (k', v) b.
Proof.
  induction b as [|[k0 v0] r IH]; simpl; [auto|].
  destruct (Nat.eqb k0 k); simpl; intuition.
Qed.

Lemma assoc_del_nodup {V : Type} (k : nat) (b : list (nat * V)) :
  NoDup (map fst b) -> NoDup (map fst (assoc_del k b)).
Proof.
  induction b as [|[k0 v0] r IH]; simpl; intro H; [constructor|].
  inversion H as [|? ? Hn Hr]; subst.
  destruct (Nat.eqb k0 k); simpl; [assumption|].
  constructor; [|auto].
  intro Hin. apply in_map_iff in Hin as [[k1 v1] [Heq Hin]]. simpl in Heq; subst.
  apply Hn. apply assoc_del_in in Hin. exact (List.in_map fst _ _ Hin).
Qed.

Lemma assoc_assoc_del {V : Type} (k k' : nat) (b : list (nat * V)) :
  NoDup (map fst b) ->
  assoc k' (assoc_del k b) = if Nat.eqb k' k then None else assoc k' b.
Proof.
  induction b as [|[k0 v0] r IH]; simpl; intro H.
  - destruct (Nat.eqb k' k); reflexivity.
  - inversion H as [|? ? Hn Hr]; subst.
    destruct (Nat.eqb k0 k) eqn:E0.
    + apply Nat.eqb_eq in E0; subst.
      destruct (Nat.eqb k' k) eqn:E.
      * apply Nat.eqb_eq in E; subst. apply assoc_none_iff; assumption.
      * reflexivity.
    + simpl. rewrite IH by assumption.
      destruct (Nat.eqb k' k) eqn:E; [|reflexivity].
      apply Nat.eqb_eq in E; subst. rewrite Nat.eqb_sym, E0. reflexivity.
Qed.

Lemma ht_wf_bucket {V : Type} (h : HashTable V) (k : nat) :
  ht_wf h ->
  exists b, nth_error (ht_table h) (k mod ht_size h) = Some b /\
            ht_bucket h k = Some b.
Proof.
  intros [Hpos [Hlen _]].
  destruct (nth_error (ht_table h) (k mod ht_size h)) as [b|] eqn:E.
  - exists b. split; [reflexivity|]. unfold ht_bucket.
    destruct (Nat.eqb (ht_size h) 0) eqn:Z; [apply Nat.eqb_eq in Z; lia|].
    exact E.
  - apply nth_error_None in E. rewrite Hlen in E.
    pose proof (Nat.mod_upper_bound k (ht_size h)). lia.
Qed.

Lemma ht_lookup_wf {V : Type} (h : HashTable V) (k : nat) :
  ht_wf h -> forall b, nth_error (ht_table h) (k mod ht_size h) = Some b ->
  ht_lookup h k = Some (assoc k b).
Proof.
  intros Hw b E. destruct (ht_wf_bucket h k Hw) as [b' [E' Hb]].
  rewrite E in E'; inversion E'; subst.
  unfold ht_lookup. rewrite Hb. reflexivity.
Qed.

(** An operation that rewrites one bucket with [f], keeping its pairs'
    keys among the old keys and [key], and keeping keys unique, keeps
    the shape of a table. *)
Lemma ht_wf_replace {V : Type} (h : HashTable V) (key : nat) (b nb : list (nat * V)) :
  ht_wf h ->
  nth_error (ht_table h) (key mod ht_size h) = Some b ->
  NoDup (map fst nb) ->
  (forall k v, In (k, v) nb -> In (k, v) b \/ k = key) ->
  ht_wf (mkHashTable (ht_size h) (replace_nth (key mod ht_size h) nb (ht_table h))).
Proof.
  intros [Hpos [Hlen Hb]] E Hnd Hin.
  assert (Hi : (key mod ht_size h < List.length (ht_table h))%nat).
  { rewrite Hlen. apply Nat.mod_upper_bound. lia. }
  split; [exact Hpos|]. split; [simpl; rewrite replace_nth_length; exact Hlen|].
  simpl. intros j b' Ej. rewrite nth_error_replace_nth in Ej by exact Hi.
  destruct (Nat.eqb (key mod ht_size h) j) eqn:Eq.
  - apply Nat.eqb_eq in Eq. inversion Ej; subst b'. split; [exact Hnd|].
    intros k v Hkv. destruct (Hin k v Hkv) as [Hkb|Hk].
    + rewrite <- Eq; exact (proj2 (Hb _ _ E) k v Hkb).
    + subst k. exact Eq.
  - exact (Hb j b' Ej).
Qed.

Lemma ht_len_concat {V : Type} (l : list (list (nat * V))) (n : nat) :
  fold_left (fun total b => (total + List.length b)%nat) l n =
  (n + List.length (List.concat l))%nat.
Proof.
  revert n; induction l as [|b r IH]; intro n; simpl; [lia|].
  rewrite IH, length_app. lia.
Qed.

Lemma ht_len_items {V : Type} (h : HashTable V) :
  ht_len h = List.length (ht_items h).
Proof. unfold ht_len, ht_items. rewrite ht_len_concat. reflexivity. Qed.

Lemma assoc_app {V : Type} (k : nat) (l1 l2 : list (nat * V)) :
  assoc k (l1 ++ l2) = match assoc k l1 with Some v => Some v | None => assoc k l2 end.
Proof.
  induction l1 as [|[k' v'] r IH]; simpl; [reflexivity|].
  destruct (Nat.eqb k k'); [reflexivity|exact IH].
Qed.

Lemma assoc_concat_none {V : Type} (k : nat) (L : list (list (nat * V))) :
  (forall b, In b L -> assoc k b = None) -> assoc k (List.concat L) = None.
Proof.
  induction L as [|b r IH]; simpl; intro H; [reflexivity|].
  rewrite assoc_app, (H b (or_introl eq_refl)). apply IH. intros; auto.
Qed.

(** A key is only ever found in the bucket it hashes to. *)
Lemma ht_wf_other_bucket {V : Type} (h : HashTable V) (k j : nat) (b : list (nat * V)) :
  ht_wf h -> nth_error (ht_table h) j = Some b -> j <> k mod ht_size h ->
  assoc k b = None.
Proof.
  intros [_ [_ Hb]] E Hj. apply assoc_none_iff. intro Hin.
  apply in_map_iff in Hin as [[k' v] [Heq Hin]]. simpl in Heq; subst k'.
  apply Hj. symmetry. exact (proj2 (Hb j b E) k v Hin).
Qed.

Lemma ht_table_split {V : Type} (h : HashTable V) (k : nat) :
  ht_wf h ->
  exists l1 b l2, ht_table h = l1 ++ b :: l2 /\ List.length l1 = k mod ht_size h /\
    nth_error (ht_table h) (k mod ht_size h) = Some b /\
    (forall b', In b' l1 -> assoc k b' = None) /\
    (forall b', In b' l2 -> assoc k b' = None).
Proof.
  intro Hw. destruct (ht_wf_bucket h k Hw) as [b [E _]].
  destruct (nth_error_split _ _ E) as [l1 [l2 [Ht Hl]]].
  exists l1, b, l2. split; [exact Ht|]. split; [exact Hl|]. split; [exact E|].
  split; intros b' Hin; apply In_nth_error in Hin as [j Ej].
  - assert (Hj : (j < List.length l1)%nat) by (apply nth_error_Some; congruence).
    apply (ht_wf_other_bucket h k j b' Hw); [|lia].
    rewrite Ht, nth_error_app1 by exact Hj. exact Ej.
  - apply (ht_wf_other_bucket h k (List.length l1 + S j) b' Hw); [|lia].
    rewrite Ht, nth_error_app2 by lia.
    replace (List.length l1 + S j - List.length l1)%nat with (S j) by lia.
    exact Ej.
Qed.

Lemma ht_keys_nodup_aux {V : Type} (size : nat) (L : list (list (nat * V))) (n : nat) :
  (forall j b, nth_error L j = Some b ->
     NoDup (map fst b) /\ forall k v, In (k, v) b -> k mod size = (n + j)%nat) ->
  NoDup (map fst (List.concat L)).
Proof.
  revert n; induction L as [|b r IH]; intros n H; simpl; [constructor|].
  rewrite map_app. apply NoDup_app.
  - exact (proj1 (H 0%nat b eq_refl)).
  - apply (IH (S n)). intros j b' E.
    destruct (H (S j) b' E) as [Hnd Hk]. split; [exact Hnd|].
    intros k v Hin. rewrite (Hk k v Hin). lia.
  - intros a Ha Ha'.
    apply in_map_iff in Ha as [[k v] [Hk Ha]]. simpl in Hk; subst k.
    apply in_map_iff in Ha' as [[k' v'] [Hk' Ha']]. simpl in Hk'; subst k'.
    apply in_concat in Ha' as [b' [Hb' Ha']].
    apply In_nth_error in Hb' as [j Ej].
    pose proof (proj2 (H 0%nat b eq_refl) a v Ha) as E1.
    pose proof (proj2 (H (S j) b' Ej) a v' Ha') as E2.
    rewrite E1 in E2. lia.
Qed.

Lemma nodup_b_sound (l : list nat) : nodup_b l = true -> NoDup l.
Proof.
  induction l as [|x r IH]; simpl; intro H; [constructor|].
  apply andb_true_iff in H as [Hx Hr]. constructor; [|exact (IH Hr)].
  intro Hin. apply mem_true in Hin. rewrite Hin in Hx. discriminate.
Qed.

Lemma buckets_ok_sound {V : Type} (size : nat) (l : list (list (nat * V))) :
  forall i, buckets_ok size i l = true ->
  forall j b, nth_error l j = Some b ->
  NoDup (map fst b) /\ forall k v, In (k, v) b -> k mod size = (i + j)%nat.
Proof.
  induction l as [|b0 r IH]; intros i H j b E; [destruct j; discriminate|].
  simpl in H. apply andb_true_iff in H as [H Hr]. apply andb_true_iff in H as [Hn Hk].
  destruct j as [|j]; simpl in E.
  - inversion E; subst b0. split; [exact (nodup_b_sound _ Hn)|].
    intros k v Hin. rewrite forallb_forall in Hk. specialize (Hk _ Hin).
    apply Nat.eqb_eq in Hk. simpl in Hk. lia.
  - destruct (IH (S i) Hr j b E) as [H1 H2]. split; [exact H1|].
    intros k v Hin. rewrite (H2 k v Hin). lia.
Qed.

Lemma ht_wf_b_sound {V : Type} (h : HashTable V) : ht_wf_b h = true -> ht_wf h.
Proof.
  unfold ht_wf_b. intro H. apply andb_true_iff in H as [H Hb].
  apply andb_true_iff in H as [Hs Hl].
  apply Nat.ltb_lt in Hs. apply Nat.eqb_eq in Hl.
  split; [exact Hs|]. split; [exact Hl|].
  intros i b E. exact (buckets_ok_sound _ _ 0 Hb i b E).
Qed.

Lemma ht_new_wf {V : Type} (size : nat) :
  (0 < size)%nat -> ht_wf (@ht_new V size).
Proof.
  intro Hpos. split; [exact Hpos|]. split; [apply repeat_length|].
  intros i b E. apply nth_error_In, repeat_spec in E. subst b.
  split; [constructor | intros k v []].
Qed.

(** X1: a fresh table of a positive size has its shape, no entries, and
    answers [None] for every key. *)
Theorem ht_new_empty {V : Type} (size : nat) :
  (0 < size)%nat ->
  ht_wf (@ht_new V size) /\ ht_len (@ht_new V size) = 0%nat /\
  forall k, ht_lookup (@ht_new V size) k = Some None.
Proof.
  intro Hpos. pose proof (ht_new_wf (V := V) size Hpos) as Hw.
  split; [exact Hw|]. split.
  - rewrite ht_len_items. unfold ht_items, ht_new; simpl.
    clear Hw Hpos. induction size as [|n IH]; simpl; auto.
  - intro k. destruct (ht_wf_bucket _ k Hw) as [b [E Hb]].
    unfold ht_lookup. rewrite Hb.
    apply nth_error_In in E. unfold ht_new in E; simpl in E.
    apply repeat_spec in E. subst b. reflexivity.
Qed.

Lemma ht_new_empty_witness :
  (0 < 40)%nat /\ ht_lookup (@ht_new nat 40) 7 = Some None.
Proof.
  split; [lia|]. apply (ht_new_empty (V := nat) 40). lia.
Defined.

(** X2: [insert] on a well-formed table succeeds, keeps the shape, and
    afterwards [lookup] returns the new value for that key and what it
    returned before for every other key. *)
Theorem ht_insert_lookup {V : Type} (h : HashTable V) (key : nat) (value : V) :
  ht_wf h ->
  exists h', ht_insert h key value = Some h' /\ ht_wf h' /\
    forall k, ht_lookup h' k =
              if Nat.eqb k key then Some (Some value) else ht_lookup h k.
Proof.
  intro Hw. destruct (ht_wf_bucket h key Hw) as [b [E Hb]].
  pose proof Hw as [Hpos [Hlen _]].
  assert (Hi : (key mod ht_size h < List.length (ht_table h))%nat).
  { rewrite Hlen. apply Nat.mod_upper_bound. lia. }
  unfold ht_insert. rewrite Hb.
  eexists. split; [reflexivity|]. split.
  - apply (ht_wf_replace h key b); [exact Hw|exact E| |].
    + apply assoc_set_nodup. exact (proj1 (proj2 (proj2 Hw) _ _ E)).
    + intros k v Hin. destruct (assoc_set_in _ _ _ _ _ Hin) as [H|[H _]]; auto.
  - intro k. unfold ht_lookup at 1, ht_bucket; simpl.
    destruct (Nat.eqb (ht_size h) 0) eqn:Z; [apply Nat.eqb_eq in Z; lia|].
    rewrite nth_error_replace_nth by exact Hi.
    destruct (Nat.eqb (key mod ht_size h) (k mod ht_size h)) eqn:Ei.
    + apply Nat.eqb_eq in Ei. rewrite assoc_assoc_set.
      destruct (Nat.eqb k key); [reflexivity|].
      rewrite (ht_lookup_wf h k Hw b); [reflexivity|]. rewrite <- Ei. exact E.
    + destruct (Nat.eqb k key) eqn:Ek.
      * apply Nat.eqb_eq in Ek; subst k. rewrite Nat.eqb_refl in Ei. discriminate.
      * unfold ht_lookup, ht_bucket. rewrite Z. reflexivity.
Qed.

Lemma ht_insert_lookup_witness :
  ht_wf (@ht_new nat 40) /\
  exists h', ht_insert (@ht_new nat 40) 47 1%nat = Some h' /\ ht_wf h' /\
    forall k, ht_lookup h' k =
              if Nat.eqb k 47 then Some (Some 1%nat) else ht_lookup (@ht_new nat 40) k.
Proof.
  split; [apply ht_new_wf; lia|]. apply ht_insert_lookup. apply ht_new_wf. lia.
Defined.

(** X3: [insert] grows [len] by one for a key the table did not hold, and
    leaves it unchanged when it overwrites a key. *)
Theorem ht_insert_len {V : Type} (h h' : HashTable V) (key : nat) (value : V) :
  ht_wf h -> ht_insert h key value = Some h' ->
  ht_len h' =
  (ht_len h + match ht_lookup h key with Some (Some _) => 0 | _ => 1 end)%nat.
Proof.
  intros Hw Hins.
  destruct (ht_table_split h key Hw) as [l1 [b [l2 [Ht [Hl [E _]]]]]].
  destruct (ht_wf_bucket h key Hw) as [b' [E' Hb]].
  rewrite E in E'; inversion E'; subst b'.
  unfold ht_insert in Hins. rewrite Hb in Hins. inversion Hins; subst h'. clear Hins.
  rewrite (ht_lookup_wf h key Hw b E).
  rewrite !ht_len_items. unfold ht_items; simpl.
  rewrite Ht, <- Hl, replace_nth_middle, !concat_app, !length_app. simpl.
  rewrite !length_app.
  assert (Hb' : List.length (assoc_set key value b) =
                (List.length b + match assoc key b with Some _ => 0 | None => 1 end)%nat).
  { rewrite <- (length_map fst), assoc_set_fst.
    destruct (assoc key b); rewrite ?length_app, length_map; simpl; lia. }
  rewrite Hb'. destruct (assoc key b); lia.
Qed.

Lemma ht_insert_len_witness :
  ht_wf (@ht_new nat 40) /\ ht_insert (@ht_new nat 40) 3 9%nat = Some (mkHashTable 40 (replace_nth 3 [(3%nat, 9%nat)] (repeat [] 40))) /\
  ht_len (mkHashTable 40 (replace_nth 3 [(3%nat, 9%nat)] (repeat [] 40))) =
  (ht_len (@ht_new nat 40) +
   match ht_lookup (@ht_new nat 40) 3 with Some (Some _) => 0 | _ => 1 end)%nat.
Proof.
  assert (Hw : ht_wf (@ht_new nat 40)) by (apply ht_new_wf; lia).
  split; [exact Hw|]. split; [vm_compute; reflexivity|].
  apply (ht_insert_len _ _ 3 9%nat Hw). vm_compute. reflexivity.
Defined.

(** X4: [delete] on a well-formed table succeeds, keeps the shape, and
    afterwards [lookup] returns [None] for that key and what it returned
    before for every other key. *)
Theorem ht_delete_lookup {V : Type} (h : HashTable V) (key : nat) :
  ht_wf h ->
  exists h', ht_delete h key = Some h' /\ ht_wf h' /\
    forall k, ht_lookup h' k = if Nat.eqb k key then Some None else ht_lookup h k.
Proof.
  intro Hw. destruct (ht_wf_bucket h key Hw) as [b [E Hb]].
  pose proof Hw as [Hpos [Hlen _]].
  pose proof (proj1 (proj2 (proj2 Hw) _ _ E)) as Hnd.
  assert (Hi : (key mod ht_size h < List.length (ht_table h))%nat).
  { rewrite Hlen. apply Nat.mod_upper_bound. lia. }
  unfold ht_delete. rewrite Hb.
  eexists. split; [reflexivity|]. split.
  - apply (ht_wf_replace h key b); [exact Hw|exact E| |].
    + apply assoc_del_nodup. exact Hnd.
    + intros k v Hin. left. exact (assoc_del_in _ _ _ _ Hin).
  - intro k. unfold ht_lookup at 1, ht_bucket; simpl.
    destruct (Nat.eqb (ht_size h) 0) eqn:Z; [apply Nat.eqb_eq in Z; lia|].
    rewrite nth_error_replace_nth by exact Hi.
    destruct (Nat.eqb (key mod ht_size h) (k mod ht_size h)) eqn:Ei.
    + apply Nat.eqb_eq in Ei. rewrite assoc_assoc_del by exact Hnd.
      destruct (Nat.eqb k key); [reflexivity|].
      rewrite (ht_lookup_wf h k Hw b); [reflexivity|]. rewrite <- Ei. exact E.
    + destruct (Nat.eqb k key) eqn:Ek.
      * apply Nat.eqb_eq in Ek; subst k. rewrite Nat.eqb_refl in Ei. discriminate.
      * unfold ht_lookup, ht_bucket. rewrite Z. reflexivity.
Qed.

Lemma ht_delete_lookup_witness :
  ht_lookup ht_sample 12 = Some (Some 5%nat) /\ ht_wf ht_sample /\
  exists h', ht_delete ht_sample 12 = Some h' /\ ht_wf h' /\
    forall k, ht_lookup h' k =
              if Nat.eqb k 12 then Some None else ht_lookup ht_sample k.
Proof.
  assert (Hw : ht_wf ht_sample) by (apply ht_wf_b_sound; vm_compute; reflexivity).
  split; [vm_compute; reflexivity|]. split; [exact Hw|].
  apply ht_delete_lookup. exact Hw.
Defined.

(** X5: in a well-formed table, iteration yields each key once, and
    [lookup] returns the value of the key's pair among [items()]. *)
Theorem ht_lookup_items {V : Type} (h : HashTable V) :
  ht_wf h ->
  NoDup (ht_keys h) /\ forall k, ht_lookup h k = Some (assoc k (ht_items h)).
Proof.
  intro Hw. split.
  - unfold ht_keys, ht_items. apply (ht_keys_nodup_aux (ht_size h) _ 0%nat).
    intros j b E. exact (proj2 (proj2 Hw) j b E).
  - intro k.
    destruct (ht_table_split h k Hw) as [l1 [b [l2 [Ht [_ [E [H1 H2]]]]]]].
    rewrite (ht_lookup_wf h k Hw b E). unfold ht_items. rewrite Ht.
    rewrite concat_app, assoc_app, (assoc_concat_none k l1 H1). simpl.
    rewrite assoc_app. destruct (assoc k b); [reflexivity|].
    rewrite (assoc_concat_none k l2 H2). reflexivity.
Qed.

Lemma ht_lookup_items_witness :
  ht_wf ht_sample /\ ht_keys ht_sample = [3%nat; 12%nat; 52%nat] /\
  NoDup (ht_keys ht_sample) /\
  forall k, ht_lookup ht_sample k = Some (assoc k (ht_items ht_sample)).
Proof.
  assert (Hw : ht_wf ht_sample) by (apply ht_wf_b_sound; vm_compute; reflexivity).
  split; [exact Hw|]. split; [vm_compute; reflexivity|].
  apply ht_lookup_items. exact Hw.
Defined.

(* ------------------------------------------------------------------ *)
(** ** Sets, removal and the greedy fills *)

Lemma set_add_in (x y : nat) (s : list nat) :
  In y (set_add x s) <-> y = x \/ In y s.
Proof.
  induction s as [|z r IH]; simpl; [intuition (subst; auto)|].
  destruct (Nat.eqb x z) eqn:E.
  - apply Nat.eqb_eq in E; subst. simpl. intuition (subst; auto).
  - destruct (Nat.ltb x z); simpl; [intuition (subst; auto)|].
    rewrite IH. intuition (subst; auto).
Qed.

Lemma set_add_sorted (x : nat) (s : list nat) :
  StronglySorted lt s -> StronglySorted lt (set_add x s).
Proof.
  induction s as [|z r IH]; simpl; intro H.
  - repeat constructor.
  - inversion H as [|? ? Hr Hf]; subst.
    destruct (Nat.eqb x z) eqn:E; [exact H|].
    destruct (Nat.ltb x z) eqn:L.
    + apply Nat.ltb_lt in L. constructor; [exact H|].
      constructor; [exact L|]. eapply Forall_impl; [|exact Hf]. intros a Ha. lia.
    + apply Nat.eqb_neq in E. apply Nat.ltb_ge in L.
      constructor; [apply IH; exact Hr|].
      apply Forall_forall. intros a Ha. apply set_add_in in Ha as [->|Ha]; [lia|].
      rewrite Forall_forall in Hf. apply Hf. exact Ha.
Qed.

Lemma sorted_nodup (l : list nat) : StronglySorted lt l -> NoDup l.
Proof.
  induction 1 as [|a l Hl IH Hf]; constructor; [|exact IH].
  intro Ha. rewrite Forall_forall in Hf. specialize (Hf a Ha). lia.
Qed.

Lemma to_set_spec (l : list nat) :
  NoDup (to_set l) /\ forall x, In x (to_set l) <-> In x l.
Proof.
  unfold to_set.
  assert (H : forall l s, StronglySorted lt s ->
            StronglySorted lt (fold_left (fun s x => set_add x s) l s) /\
            forall x, In x (fold_left (fun s x => set_add x s) l s) <-> In x l \/ In x s).
  { induction l0 as [|a r IH]; intros s Hs; simpl.
    - split; [exact Hs|tauto].
    - destruct (IH (set_add a s) (set_add_sorted a s Hs)) as [H1 H2].
      split; [exact H1|]. intro x. rewrite H2, set_add_in. simpl. intuition (subst; auto). }
  destruct (H l [] (SSorted_nil lt)) as [H1 H2].
  split; [apply sorted_nodup; exact H1|]. intro x. rewrite H2. simpl. tauto.
Qed.

Lemma remove_first_perm (x : nat) (l : list nat) :
  In x l -> Permutation l (x :: remove_first x l).
Proof.
  induction l as [|y r IH]; simpl; [intros []|]. intro Hin.
  destruct (Nat.eqb x y) eqn:E.
  - apply Nat.eqb_eq in E; subst. apply Permutation_refl.
  - apply Nat.eqb_neq in E. destruct Hin as [->|Hin]; [contradiction|].
    eapply perm_trans; [apply perm_skip, IH, Hin|]. apply perm_swap.
Qed.

Lemma argmin_first_in (f : nat -> Q) (l : list nat) :
  l <> [] -> exists x, argmin_first f l = Some x /\ In x l.
Proof.
  intro Hne. unfold argmin_first.
  set (step := fun (acc : option (nat * Q)) pid =>
                 match acc with
                 | None => Some (pid, f pid)
                 | Some (_, bd) => if Qltb (f pid) bd then Some (pid, f pid) else acc
                 end).
  assert (Hin : forall l acc p d, fold_left step l acc = Some (p, d) ->
                  (exists d0, acc = Some (p, d0)) \/ In p l).
  { induction l0 as [|a r IH]; intros acc p d H; simpl in H; [left; eauto|].
    destruct (IH _ _ _ H) as [[d0 Hd0]|Hr]; [|right; right; exact Hr].
    unfold step in Hd0. destruct acc as [[q bd]|].
    - destruct (Qltb (f a) bd).
      + injection Hd0 as <- _. right; left; reflexivity.
      + left. exists d0. exact Hd0.
    - injection Hd0 as <- _. right; left; reflexivity. }
  assert (Hsome : forall l acc, acc <> None -> fold_left step l acc <> None).
  { induction l0 as [|a r IH]; intros acc Hacc; simpl; [exact Hacc|].
    apply IH. unfold step. destruct acc as [[q bd]|]; [|discriminate].
    destruct (Qltb (f a) bd); discriminate. }
  destruct l as [|a r]; [contradiction|].
  destruct (fold_left step (a :: r) None) as [[p d]|] eqn:E.
  - exists p. split; [reflexivity|].
    destruct (Hin _ _ _ _ E) as [[d0 Hd0]|H]; [discriminate|exact H].
  - exfalso. simpl in E. apply (Hsome r (step None a)); [discriminate|exact E].
Qed.

Lemma nn_weighted_perm (g : Geography) (tbl : table) (now : Q) (fuel : nat) :
  forall loc remaining route, (List.length remaining <= fuel)%nat ->
  Permutation (nn_weighted g tbl now fuel loc remaining route) (route ++ remaining).
Proof.
  induction fuel as [|fuel IH]; intros loc remaining route Hf; simpl.
  - destruct remaining; [rewrite app_nil_r; apply Permutation_refl|simpl in Hf; lia].
  - destruct remaining as [|x xs]; [rewrite app_nil_r; apply Permutation_refl|].
    match goal with |- context [argmin_first ?f (x :: xs)] =>
      destruct (argmin_first_in f (x :: xs) ltac:(discriminate)) as [nxt [Hn Hin]];
      rewrite Hn end.
    pose proof (remove_first_perm nxt _ Hin) as Hp.
    pose proof (Permutation_length Hp) as Hl. cbn [List.length] in Hl, Hf.
    eapply perm_trans; [apply IH; lia|].
    rewrite <- app_assoc. apply Permutation_app_head. simpl.
    apply Permutation_sym. exact Hp.
Qed.

Lemma nn_fill_perm (g : Geography) (tbl : table) (now : Q) (fuel : nat) :
  forall loc remaining route, (List.length remaining <= fuel)%nat ->
  Permutation (nn_fill g tbl now fuel loc remaining route) (route ++ remaining).
Proof.
  induction fuel as [|fuel IH]; intros loc remaining route Hf; simpl.
  - destruct remaining; [rewrite app_nil_r; apply Permutation_refl|simpl in Hf; lia].
  - destruct remaining as [|x xs]; [rewrite app_nil_r; apply Permutation_refl|].
    match goal with |- context [argmin_first ?f (x :: xs)] =>
      destruct (argmin_first_in f (x :: xs) ltac:(discriminate)) as [nxt [Hn Hin]];
      rewrite Hn end.
    pose proof (remove_first_perm nxt _ Hin) as Hp.
    pose proof (Permutation_length Hp) as Hl. cbn [List.length] in Hl, Hf.
    eapply perm_trans; [apply IH; lia|].
    rewrite <- app_assoc. apply Permutation_app_head. simpl.
    apply Permutation_sym. exact Hp.
Qed.

Lemma fold_left_invariant {A B : Type} (P : A -> Prop) (f : A -> B -> A) (l : list B) :
  (forall a b, P a -> P (f a b)) -> forall a, P a -> P (fold_left f l a).
Proof.
  intros Hf. induction l as [|b r IH]; intros a Ha; simpl; [exact Ha|].
  apply IH, Hf, Ha.
Qed.

Lemma nearest_neighbor_perm (g : Geography) (tbl : table) (now : Q) (pids : list nat) :
  Permutation (nearest_neighbor g tbl now pids) (to_set pids).
Proof.
  unfold nearest_neighbor.
  match goal with |- context [fold_left ?F ?E ([], to_set pids, "hub")] =>
    set (step := F); set (early := E) end.
  assert (HF : forall a, Permutation (fst (fst a) ++ snd (fst a)) (to_set pids) ->
            Permutation (fst (fst (fold_left step early a)) ++
                         snd (fst (fold_left step early a))) (to_set pids)).
  { apply (fold_left_invariant
             (fun a => Permutation (fst (fst a) ++ snd (fst a)) (to_set pids))).
    intros [[r rem] l] b Hp. unfold step. cbv beta iota.
    cbn [fst snd] in Hp.
    destruct (mem b rem) eqn:Hm; cbn [fst snd]; [|exact Hp].
    apply mem_true in Hm. eapply perm_trans; [|exact Hp].
    rewrite <- app_assoc. apply Permutation_app_head. cbn [app].
    apply Permutation_sym, remove_first_perm, Hm. }
  specialize (HF ([], to_set pids, "hub") (Permutation_refl _)).
  destruct (fold_left step early ([], to_set pids, "hub")) as [[route remaining] loc].
  cbn [fst snd] in HF.
  eapply perm_trans; [apply nn_weighted_perm; apply le_n|exact HF].
Qed.

(* ------------------------------------------------------------------ *)
(** ** Planner properties *)

(** X6: [_nearest_neighbor] puts each distinct package id of its input in
    the route exactly once, and nothing else. *)
Theorem nearest_neighbor_each_once (g : Geography) (tbl : table) (now : Q)
  (pids : list nat) :
  NoDup (nearest_neighbor g tbl now pids) /\
  forall x, In x (nearest_neighbor g tbl now pids) <-> In x pids.
Proof.
  pose proof (nearest_neighbor_perm g tbl now pids) as Hp.
  destruct (to_set_spec pids) as [Hnd Hin]. split.
  - apply Permutation_NoDup with (to_set pids); [apply Permutation_sym, Hp|exact Hnd].
  - intro x. rewrite <- Hin. split; apply Permutation_in; [exact Hp|apply Permutation_sym, Hp].
Qed.

Lemma optimize_with_permutations_shape (g : Geography) (tbl : table) (t : Truck)
  (deadlines others route : list nat) :
  optimize_with_permutations g tbl t deadlines others = Some route ->
  exists best rest, route = best ++ rest /\ Permutation best deadlines /\
    NoDup rest /\ forall x, In x rest <-> In x others.
Proof.
  unfold optimize_with_permutations, perm_search.
  assert (HL : forall p, In p (permutations deadlines) -> Permutation p deadlines)
    by (intros p; apply in_permutations).
  destruct (fold_search g tbl t deadlines (permutations deadlines) (None, None) HL
              (or_introl eq_refl)) as [Hinv _].
  destruct Hinv as [Hnil|[b [s [Hacc [_ [_ Hpb]]]]]].
  - rewrite Hnil. discriminate.
  - rewrite Hacc. simpl. destruct b as [|x b']; [discriminate|].
    intro H. injection H as <-.
    destruct (to_set_spec others) as [Hnd Hin].
    match goal with |- context [nn_fill g tbl ?now ?f ?loc ?rem ?r] =>
      pose proof (nn_fill_perm g tbl now f loc rem r (le_n _)) as Hp;
      destruct (nn_fill_prefix g tbl now f loc rem r) as [rest Hrest] end.
    rewrite Hrest in Hp |- *. apply Permutation_app_inv_l in Hp.
    exists (x :: b'), rest. split; [reflexivity|]. split; [exact Hpb|]. split.
    + apply Permutation_NoDup with (to_set others); [apply Permutation_sym, Hp|exact Hnd].
    + intro y. rewrite <- Hin. split; apply Permutation_in; [exact Hp|apply Permutation_sym, Hp].
Qed.



Lemma scan_j_dist (g : Geography) (tbl : table) (now : Q) (dl best : list nat)
  (bd : Q) (i : nat) (js : list nat) (nr : list nat) (nd : Q) :
  scan_j g tbl now dl best bd i js = Some (nr, nd) ->
  nd = calculate_route_distance g tbl now nr /\ nd < bd.
Proof.
  induction js as [|j js IH]; simpl; [discriminate|].
  destruct (delays_deadline dl (segment best i j)); [exact IH|].
  destruct (Qltb _ bd) eqn:Hlt; [|exact IH].
  intro H. injection H as <- <-. split; [reflexivity|]. apply Qltb_true. exact Hlt.
Qed.

Lemma two_opt_loop_dist (g : Geography) (tbl : table) (now : Q) (dl : list nat)
  (fuel : nat) : forall best bd, bd = calculate_route_distance g tbl now best ->
  calculate_route_distance g tbl now (two_opt_loop g tbl now dl fuel best bd) <= bd.
Proof.
  induction fuel as [|fuel IH]; intros best bd Hbd; simpl.
  - rewrite Hbd. apply Qle_refl.
  - destruct (two_opt_pass g tbl now dl best bd) as [[nr nd]|] eqn:E.
    + assert (H : nd = calculate_route_distance g tbl now nr /\ nd < bd).
      { unfold two_opt_pass in E. revert E.
        generalize (seq 0 (List.length best - 1)) as is.
        induction is as [|i is IHi]; simpl; [discriminate|].
        destruct (scan_j _ _ _ _ _ _ _ _) as [[r d]|] eqn:Ej; [|exact IHi].
        intro H. injection H as -> ->. exact (scan_j_dist _ _ _ _ _ _ _ _ _ _ Ej). }
      destruct H as [H1 H2]. eapply Qle_trans; [apply IH; exact H1|].
      apply Qlt_le_weak. exact H2.
    + rewrite Hbd. apply Qle_refl.
Qed.

(** X7: [_apply_2opt] never makes the round trip longer: the distance
    [calculate_route_distance] gives its result is at most that of its
    input route. *)
Theorem apply_2opt_no_longer (g : Geography) (tbl : table) (now : Q) (route : list nat) :
  calculate_route_distance g tbl now (apply_2opt g tbl now route) <=
  calculate_route_distance g tbl now route.
Proof.
  unfold apply_2opt. destruct (Nat.leb (List.length route) 2); [apply Qle_refl|].
  apply two_opt_loop_dist. reflexivity.
Qed.

Lemma handle_address_corrections_eq (tbl : table) (t : Truck) :
  handle_address_corrections tbl t =
  (filter (fun pid => negb (correction_pending tbl (ttime t) pid)) (cargo t),
   filter (correction_pending tbl (ttime t)) (cargo t)).
Proof.
  unfold handle_address_corrections.
  match goal with |- fold_left ?F _ _ = _ => set (step := F) end.
  assert (H : forall l cur dfr, fold_left step l (cur, dfr) =
            (cur ++ filter (fun pid => negb (correction_pending tbl (ttime t) pid)) l,
             dfr ++ filter (correction_pending tbl (ttime t)) l)).
  { induction l as [|pid r IH]; intros cur dfr; simpl.
    - rewrite !app_nil_r. reflexivity.
    - transitivity (fold_left step r (if correction_pending tbl (ttime t) pid
                                       then (cur, dfr ++ [pid]) else (cur ++ [pid], dfr))).
      + f_equal. unfold correction_pending.
        destruct (lookup tbl pid) as [pkg|]; [|reflexivity].
        destruct (correction_time pkg) as [ct|]; [|reflexivity].
        destruct (Qltb (ttime t) ct); reflexivity.
      + destruct (correction_pending tbl (ttime t) pid); simpl;
          rewrite IH, <- app_assoc; reflexivity. }
  rewrite H. reflexivity.
Qed.

Lemma categorize_packages_eq (tbl : table) (pids : list nat) :
  categorize_packages tbl pids =
  (filter (due_by_1030 tbl) pids, filter (fun pid => negb (due_by_1030 tbl pid)) pids).
Proof.
  unfold categorize_packages.
  match goal with |- fold_left ?F _ _ = _ => set (step := F) end.
  assert (H : forall l dls oth, fold_left step l (dls, oth) =
            (dls ++ filter (due_by_1030 tbl) l,
             oth ++ filter (fun pid => negb (due_by_1030 tbl pid)) l)).
  { induction l as [|pid r IH]; intros dls oth; simpl.
    - rewrite !app_nil_r. reflexivity.
    - transitivity (fold_left step r (if due_by_1030 tbl pid
                                       then (dls ++ [pid], oth) else (dls, oth ++ [pid]))).
      + f_equal. unfold due_by_1030.
        destruct (lookup tbl pid) as [pkg|]; [|reflexivity].
        destruct (deadline_time pkg) as [d|]; [|reflexivity].
        destruct (Qle_bool d DEADLINE_1030); reflexivity.
      + destruct (due_by_1030 tbl pid); simpl;
          rewrite IH, <- app_assoc; reflexivity. }
  rewrite H. reflexivity.
Qed.

(** X8: [_handle_address_corrections] splits the truck's cargo, keeping
    cargo order, into the packages whose address correction is not yet
    due ([deferred]) and all the others ([current]). *)
Theorem handle_address_corrections_split (tbl : table) (t : Truck) :
  handle_address_corrections tbl t =
  (filter (fun pid => negb (correction_pending tbl (ttime t) pid)) (cargo t),
   filter (correction_pending tbl (ttime t)) (cargo t)).
Proof. apply handle_address_corrections_eq. Qed.

(** X9: [_categorize_packages] splits its input, keeping its order, into
    the packages due at or before 10:30 ([deadlines]) and all the others. *)
Theorem categorize_packages_split (tbl : table) (pids : list nat) :
  categorize_packages tbl pids =
  (filter (due_by_1030 tbl) pids, filter (fun pid => negb (due_by_1030 tbl pid)) pids).
Proof. apply categorize_packages_eq. Qed.

(** X10: a route returned by [_optimize_with_permutations] is an ordering
    of the deadline packages followed by each distinct other package
    once. *)
Theorem optimize_with_permutations_route (g : Geography) (tbl : table) (t : Truck)
  (deadlines others route : list nat) :
  optimize_with_permutations g tbl t deadlines others = Some route ->
  exists best rest, route = best ++ rest /\ Permutation best deadlines /\
    NoDup rest /\ forall x, In x rest <-> In x others.
Proof. apply optimize_with_permutations_shape. Qed.

Lemma optimize_with_permutations_route_witness :
  exists route,
    optimize_with_permutations geo_line tbl_line (new_truck 1 START_TIME 16)
      [1%nat; 2%nat; 3%nat] [4%nat] = Some route /\
    exists best rest, route = best ++ rest /\ Permutation best [1%nat; 2%nat; 3%nat] /\
      NoDup rest /\ forall x, In x rest <-> In x [4%nat].
Proof.
  assert (H : optimize_with_permutations geo_line tbl_line (new_truck 1 START_TIME 16)
                [1%nat; 2%nat; 3%nat] [4%nat] = Some [2%nat; 3%nat; 1%nat; 4%nat])
    by (vm_compute; reflexivity).
  exists [2%nat; 3%nat; 1%nat; 4%nat]. split; [exact H|].
  exact (optimize_with_permutations_route _ _ _ _ _ _ H).
Defined.

Lemma apply_2opt_perm (g : Geography) (tbl : table) (now : Q) (route : list nat) :
  Permutation (apply_2opt g tbl now route) route.
Proof.
  unfold apply_2opt. destruct (Nat.leb (List.length route) 2); [apply Permutation_refl|].
  apply two_opt_loop_spec.
Qed.

Lemma filter_partition_perm (f : nat -> bool) (l : list nat) :
  Permutation (filter f l ++ filter (fun x => negb (f x)) l) l.
Proof.
  induction l as [|x r IH]; simpl; [apply perm_nil|].
  destruct (f x); simpl.
  - apply perm_skip, IH.
  - eapply perm_trans; [apply Permutation_sym, Permutation_middle|]. apply perm_skip, IH.
Qed.

Lemma to_set_perm (l : list nat) : NoDup l -> Permutation (to_set l) l.
Proof.
  intro Hnd. destruct (to_set_spec l) as [H1 H2].
  apply NoDup_Permutation; [exact H1|exact Hnd|exact H2].
Qed.

Lemma filter_all_false (f : nat -> bool) (l : list nat) :
  (forall x, In x l -> f x = false) -> filter f l = [].
Proof.
  induction l as [|x r IH]; simpl; intro H; [reflexivity|].
  rewrite (H x (or_introl eq_refl)). apply IH. intros; apply H; right; assumption.
Qed.

Lemma filter_all_true (f : nat -> bool) (l : list nat) :
  (forall x, In x l -> f x = true) -> filter f l = l.
Proof.
  induction l as [|x r IH]; simpl; intro H; [reflexivity|].
  rewrite (H x (or_introl eq_refl)), IH; [reflexivity|]. intros; apply H; right; assumption.
Qed.

(** X11: when the truck's cargo lists each package once and no cargo
    package waits for an address correction, [NN2OptOptimizer.optimize]
    returns an ordering of exactly the cargo. *)
Theorem optimize_route_is_cargo (g : Geography) (tbl : table) (t : Truck) :
  NoDup (cargo t) ->
  (forall pid, In pid (cargo t) -> correction_pending tbl (ttime t) pid = false) ->
  Permutation (optimize g tbl t) (cargo t).
Proof.
  intros Hnd Hpend. unfold optimize.
  assert (Hcases : cargo t = [] \/ exists c cs, cargo t = c :: cs)
    by (destruct (cargo t) as [|c cs]; [left|right; exists c, cs]; reflexivity).
  destruct Hcases as [Hc|[c [cs Hc]]]; [rewrite Hc; apply perm_nil|].
  rewrite Hc at 1.
  rewrite handle_address_corrections_eq.
  rewrite (filter_all_false _ (cargo t) Hpend).
  rewrite (filter_all_true (fun pid => negb (correction_pending tbl (ttime t) pid)) (cargo t))
    by (intros x Hx; rewrite Hpend; [reflexivity|exact Hx]).
  rewrite categorize_packages_eq.
  pose proof (filter_partition_perm (due_by_1030 tbl) (cargo t)) as Hpart.
  assert (Hrest : Permutation (apply_2opt g tbl (ttime t) (nearest_neighbor g tbl (ttime t) (cargo t)) ++ [])
                    (cargo t)).
  { rewrite app_nil_r.
    eapply perm_trans; [apply apply_2opt_perm|].
    eapply perm_trans; [apply nearest_neighbor_perm|apply to_set_perm, Hnd]. }
  destruct (filter (due_by_1030 tbl) (cargo t)) as [|d ds] eqn:Hd; [exact Hrest|].
  destruct (Nat.leb (List.length (d :: ds)) 5); [|exact Hrest].
  destruct (optimize_with_permutations g tbl t (d :: ds)
              (filter (fun pid => negb (due_by_1030 tbl pid)) (cargo t))) as [r|] eqn:Ho;
    [|exact Hrest].
  destruct r as [|x r]; [exact Hrest|].
  destruct (optimize_with_permutations_shape _ _ _ _ _ _ Ho) as [best [rest [Hr [Hb [Hnr Hin]]]]].
  rewrite Hr. eapply perm_trans; [|exact Hpart].
  apply Permutation_app; [exact Hb|].
  apply NoDup_Permutation; [exact Hnr| |exact Hin].
  apply NoDup_filter. exact Hnd.
Qed.

Lemma optimize_route_is_cargo_witness :
  NoDup (cargo (set_cargo (new_truck 1 START_TIME 16) [1%nat; 2%nat; 3%nat; 4%nat])) /\
  (forall pid, In pid (cargo (set_cargo (new_truck 1 START_TIME 16) [1%nat; 2%nat; 3%nat; 4%nat])) ->
     correction_pending tbl_line
       (ttime (set_cargo (new_truck 1 START_TIME 16) [1%nat; 2%nat; 3%nat; 4%nat])) pid = false) /\
  Permutation (optimize geo_line tbl_line (set_cargo (new_truck 1 START_TIME 16) [1%nat; 2%nat; 3%nat; 4%nat]))
    (cargo (set_cargo (new_truck 1 START_TIME 16) [1%nat; 2%nat; 3%nat; 4%nat])).
Proof.
  assert (Hnd : NoDup (cargo (set_cargo (new_truck 1 START_TIME 16) [1%nat; 2%nat; 3%nat; 4%nat]))).
  { simpl. repeat constructor; simpl; intuition discriminate. }
  assert (Hp : forall pid, In pid (cargo (set_cargo (new_truck 1 START_TIME 16) [1%nat; 2%nat; 3%nat; 4%nat])) ->
     correction_pending tbl_line
       (ttime (set_cargo (new_truck 1 START_TIME 16) [1%nat; 2%nat; 3%nat; 4%nat])) pid = false).
  { intros pid Hin. simpl in Hin.
    repeat (destruct Hin as [<-|Hin]; [vm_compute; reflexivity|]). destruct Hin. }
  split; [exact Hnd|]. split; [exact Hp|].
  exact (optimize_route_is_cargo _ _ _ Hnd Hp).
Defined.

Lemma filter_filter_and (f h : nat -> bool) (l : list nat) :
  filter f (filter h l) = filter (fun x => h x && f x) l.
Proof.
  induction l as [|x r IH]; simpl; [reflexivity|].
  destruct (h x); simpl; [destruct (f x); simpl; rewrite IH; reflexivity|exact IH].
Qed.

Lemma optimize_with_permutations_found (g : Geography) (tbl : table) (t : Truck)
  (deadlines others : list nat) :
  deadlines <> [] ->
  (exists p, Permutation p deadlines /\
             fst (perm_eval g tbl (speed t) p (ttime t) "hub" 0) = true) ->
  exists b rest, optimize_with_permutations g tbl t deadlines others = Some (b ++ rest) /\
    b <> [] /\ Permutation b deadlines /\ Permutation rest (to_set others).
Proof.
  intros Hne [p0 [Hp0 Hf0]].
  rewrite (proj1 (perm_eval_feasible g tbl t p0)) in Hf0.
  assert (HL : forall p, In p (permutations deadlines) -> Permutation p deadlines)
    by (intros p; apply in_permutations).
  destruct (fold_search g tbl t deadlines (permutations deadlines) (None, None) HL
              (or_introl eq_refl)) as [Hinv [Hmin _]].
  unfold optimize_with_permutations, perm_search.
  destruct Hinv as [Hnil|[b [s [Hacc [_ [_ Hpb]]]]]].
  - exfalso. destruct (Hmin p0 (proj2 (in_permutations _ _) Hp0) Hf0) as [s [Hs _]].
    rewrite Hnil in Hs. discriminate.
  - rewrite Hacc. simpl.
    destruct b as [|x b']; [apply Permutation_nil in Hpb; contradiction|].
    match goal with |- context [nn_fill g tbl ?now ?f ?loc ?rem ?r] =>
      pose proof (nn_fill_perm g tbl now f loc rem r (le_n _)) as Hp;
      destruct (nn_fill_prefix g tbl now f loc rem r) as [rest Hrest] end.
    rewrite Hrest in Hp |- *. apply Permutation_app_inv_l in Hp.
    exists (x :: b'), rest. split; [reflexivity|]. split; [discriminate|].
    split; [exact Hpb|exact Hp].
Qed.

(** X12: when the truck's packages due by 10:30 (among those whose address
    is settled) are between one and five and some ordering of them is on
    time by the search's own check, [NN2OptOptimizer.optimize] returns the
    permutation route, and that route leaves out every cargo package whose
    address correction is still pending: such packages get no stop. *)
Theorem optimize_drops_deferred (g : Geography) (tbl : table) (t : Truck) :
  let deadlines := filter (fun pid => negb (correction_pending tbl (ttime t) pid) &&
                                      due_by_1030 tbl pid) (cargo t) in
  deadlines <> [] -> (List.length deadlines <= 5)%nat ->
  (exists p, Permutation p deadlines /\
             fst (perm_eval g tbl (speed t) p (ttime t) "hub" 0) = true) ->
  forall pid, correction_pending tbl (ttime t) pid = true -> ~ In pid (optimize g tbl t).
Proof.
  intros deadlines Hne Hle Hfeas pid Hpid. subst deadlines. unfold optimize.
  assert (Hcases : cargo t = [] \/ exists c cs, cargo t = c :: cs)
    by (destruct (cargo t) as [|c cs]; [left|right; exists c, cs]; reflexivity).
  destruct Hcases as [Hc|[c [cs Hc]]]; [rewrite Hc in Hne; contradiction|].
  rewrite Hc at 1.
  rewrite handle_address_corrections_eq, categorize_packages_eq, filter_filter_and.
  destruct (filter (fun x => negb (correction_pending tbl (ttime t) x) && due_by_1030 tbl x)
              (cargo t)) as [|d ds] eqn:Hd; [contradiction|].
  apply Nat.leb_le in Hle. rewrite Hle.
  destruct (optimize_with_permutations_found g tbl t (d :: ds)
              (filter (fun pid => negb (due_by_1030 tbl pid))
                 (filter (fun pid => negb (correction_pending tbl (ttime t) pid)) (cargo t)))
              Hne Hfeas) as [b [rest [Ho [Hb [Hpb Hpr]]]]].
  rewrite Ho. destruct b as [|x b']; [contradiction|]. simpl app.
  intro Hin. change (In pid ((x :: b') ++ rest)) in Hin.
  apply in_app_or in Hin as [Hin|Hin].
  - apply (Permutation_in _ Hpb) in Hin. rewrite <- Hd in Hin.
    apply filter_In in Hin as [_ Hin]. rewrite Hpid in Hin. discriminate.
  - apply (Permutation_in _ Hpr), (proj1 (proj2 (to_set_spec _) pid)) in Hin.
    apply filter_In in Hin as [Hin _]. apply filter_In in Hin as [_ Hin].
    rewrite Hpid in Hin. discriminate.
Qed.

Lemma optimize_drops_deferred_witness :
  filter (fun pid => negb (correction_pending tbl_deferred (ttime truck_deferred) pid) &&
                     due_by_1030 tbl_deferred pid) (cargo truck_deferred) = [1%nat] /\
  fst (perm_eval geo_line tbl_deferred (speed truck_deferred) [1%nat]
         (ttime truck_deferred) "hub" 0) = true /\
  correction_pending tbl_deferred (ttime truck_deferred) 5 = true /\
  ~ In 5%nat (optimize geo_line tbl_deferred truck_deferred).
Proof.
  assert (H1 : filter (fun pid => negb (correction_pending tbl_deferred (ttime truck_deferred) pid) &&
                                  due_by_1030 tbl_deferred pid) (cargo truck_deferred) = [1%nat])
    by (vm_compute; reflexivity).
  assert (H2 : fst (perm_eval geo_line tbl_deferred (speed truck_deferred) [1%nat]
                      (ttime truck_deferred) "hub" 0) = true) by (vm_compute; reflexivity).
  assert (H3 : correction_pending tbl_deferred (ttime truck_deferred) 5 = true)
    by (vm_compute; reflexivity).
  split; [exact H1|]. split; [exact H2|]. split; [exact H3|].
  apply (optimize_drops_deferred geo_line tbl_deferred truck_deferred); cbv zeta.
  - rewrite H1. discriminate.
  - rewrite H1. simpl. lia.
  - exists [1%nat]. rewrite H1. split; [apply Permutation_refl|exact H2].
  - exact H3.
Defined.

(* ------------------------------------------------------------------ *)
(** ** Route execution *)

Lemma pop_at_in (i : nat) (l : list nat) (x : nat) :
  In x (pop_at i l) -> In x l.
Proof.
  unfold pop_at. intro H. apply in_app_or in H as [H|H].
  - rewrite <- (firstn_skipn i l). apply in_or_app. left. exact H.
  - rewrite <- (firstn_skipn (S i) l). apply in_or_app. right. exact H.
Qed.

Lemma exec_loop_mileage_mono (g : Geography)
  (Hdist : forall a b, 0 <= get_distance g a b) (fuel : nat) :
  forall t tbl i loc,
  mileage t <= mileage (fst (fst (fst (exec_loop g fuel t tbl i loc)))).
Proof.
  induction fuel as [|fuel IH]; intros t tbl i loc; simpl; [apply Qle_refl|].
  destruct (Nat.ltb i (List.length (troute t))); [|apply Qle_refl].
  assert (Hdel : forall pkg,
    mileage t <= mileage (fst (fst (fst (
      let dist := get_distance g loc (get_address pkg (Some (ttime t))) in
      let '(t', pkg') := truck_deliver t pkg dist in
      exec_loop g fuel t' (tbl_insert tbl pkg') (S i)
        (get_address pkg' (Some (ttime t')))))))).
  { intros pkg. simpl. eapply Qle_trans; [|apply IH]. simpl.
    rewrite <- (Qplus_0_r (mileage t)) at 1. apply Qplus_le_r. apply Hdist. }
  destruct (lookup tbl (nth i (troute t) 0%nat)) as [pkg|]; [|apply IH].
  destruct (correction_time pkg) as [ct|]; [|apply Hdel].
  destruct (Qltb (ttime t) ct); [|apply Hdel].
  destruct (Qltb (ct - ttime t) (1 # 2)); [exact (IH (set_time t ct) tbl i loc)|].
  destruct (Nat.ltb 10 (S (defer_count pkg))); [exact (IH t _ _ _)|exact (IH (set_troute t _) _ _ _)].
Qed.

Lemma exec_loop_frame (g : Geography) (fuel : nat) :
  forall t tbl i loc pid, table_keyed tbl -> ~ In pid (troute t) ->
  lookup (snd (fst (fst (exec_loop g fuel t tbl i loc)))) pid = lookup tbl pid.
Proof.
  induction fuel as [|fuel IH]; intros t tbl i loc pid Hk Hn; simpl; [reflexivity|].
  destruct (Nat.ltb i (List.length (troute t))) eqn:Hi; [|reflexivity].
  apply Nat.ltb_lt in Hi.
  pose proof (nth_In (troute t) 0%nat Hi) as Hin0.
  destruct (lookup tbl (nth i (troute t) 0%nat)) as [pkg|] eqn:Hl; [|apply IH; assumption].
  pose proof (Hk _ _ Hl) as Hid.
  assert (Hne : pid <> package_id pkg) by (rewrite Hid; intros ->; contradiction).
  assert (Hins : forall q, package_id q = package_id pkg ->
            lookup (tbl_insert tbl q) pid = lookup tbl pid).
  { intros q Hq. rewrite lookup_tbl_insert, Hq.
    destruct (Nat.eqb pid (package_id pkg)) eqn:E; [apply Nat.eqb_eq in E; contradiction|reflexivity]. }
  assert (Hdel : lookup (snd (fst (fst (
      let dist := get_distance g loc (get_address pkg (Some (ttime t))) in
      let '(t', pkg') := truck_deliver t pkg dist in
      exec_loop g fuel t' (tbl_insert tbl pkg') (S i)
        (get_address pkg' (Some (ttime t'))))))) pid = lookup tbl pid).
  { simpl. rewrite IH; [apply Hins; reflexivity|apply table_keyed_insert, Hk|exact Hn]. }
  destruct (correction_time pkg) as [ct|]; [|exact Hdel].
  destruct (Qltb (ttime t) ct); [|exact Hdel].
  destruct (Qltb (ct - ttime t) (1 # 2)); [apply IH; assumption|].
  destruct (Nat.ltb 10 (S (defer_count pkg))).
  - rewrite IH; [apply Hins; reflexivity|apply table_keyed_insert, Hk|exact Hn].
  - rewrite IH; [apply Hins; reflexivity|apply table_keyed_insert, Hk|].
    simpl. intro H. apply in_app_or in H as [H|[H|[]]].
    + exact (Hn (pop_at_in _ _ _ H)).
    + apply Hne. rewrite Hid. symmetry. exact H.
Qed.

Lemma firstn_S_nth (i : nat) (l : list nat) :
  (i < List.length l)%nat -> firstn (S i) l = firstn i l ++ [nth i l 0%nat].
Proof.
  revert i; induction l as [|y r IH]; intros i Hi; simpl in Hi; [lia|].
  destruct i as [|i]; [reflexivity|].
  change (firstn (S (S i)) (y :: r)) with (y :: firstn (S i) r).
  rewrite IH by lia. reflexivity.
Qed.

Lemma exec_loop_delivers (g : Geography) (Hdist : forall a b, 0 <= get_distance g a b)
  (R : list nat) (t0 : Q) (fuel : nat) :
  forall t tbl i loc,
  troute t = R -> t0 <= ttime t -> 0 < speed t -> table_keyed tbl ->
  (forall pid, In pid R -> exists p, lookup tbl pid = Some p /\ correction_settled t0 p) ->
  (forall pid, In pid (firstn i R) -> delivered_in tbl pid) ->
  (List.length R <= fuel + i)%nat ->
  forall pid, In pid R -> delivered_in (snd (fst (fst (exec_loop g fuel t tbl i loc)))) pid.
Proof.
  induction fuel as [|fuel IH]; intros t tbl i loc Hr Ht Hs Hk Hgood Hdone Hf pid Hpid.
  - simpl. apply Hdone. rewrite firstn_all2 by lia. exact Hpid.
  - simpl. destruct (Nat.ltb i (List.length (troute t))) eqn:Hi.
    2: { apply Nat.ltb_ge in Hi. apply Hdone. rewrite Hr in Hi.
         rewrite firstn_all2 by lia. exact Hpid. }
    apply Nat.ltb_lt in Hi. subst R.
    pose proof (nth_In (troute t) 0%nat Hi) as Hin0.
    destruct (Hgood _ Hin0) as [pkg [Hl Hset]]. rewrite Hl.
    pose proof (Hk _ _ Hl) as Hid.
    assert (Hdel :
      delivered_in (snd (fst (fst (
        let dist := get_distance g loc (get_address pkg (Some (ttime t))) in
        let '(t', pkg') := truck_deliver t pkg dist in
        exec_loop g fuel t' (tbl_insert tbl pkg') (S i)
          (get_address pkg' (Some (ttime t'))))))) pid).
    { simpl. apply IH.
      - reflexivity.
      - cbn [ttime]. eapply Qle_trans; [exact Ht|].
        rewrite <- (Qplus_0_r (ttime t)) at 1. apply Qplus_le_r.
        apply Qle_shift_div_l; [exact Hs|]. rewrite Qmult_0_l. apply Hdist.
      - exact Hs.
      - apply table_keyed_insert, Hk.
      - intros q Hq. rewrite lookup_tbl_insert. simpl.
        destruct (Nat.eqb q (package_id pkg)) eqn:E.
        + eexists; split; [reflexivity|]. exact Hset.
        + apply Hgood, Hq.
      - intros q Hq. rewrite firstn_S_nth in Hq by exact Hi.
        unfold delivered_in. rewrite lookup_tbl_insert. simpl.
        destruct (Nat.eqb q (package_id pkg)) eqn:E.
        + do 2 eexists. split; [reflexivity|]. split; reflexivity.
        + apply in_app_or in Hq as [Hq|[Hq|[]]]; [apply Hdone, Hq|].
          exfalso. apply Nat.eqb_neq in E. apply E. rewrite Hid. symmetry. exact Hq.
      - lia.
      - exact Hpid. }
    unfold correction_settled in Hset.
    destruct (correction_time pkg) as [ct|]; [|exact Hdel].
    destruct (Qltb (ttime t) ct) eqn:Hc; [|exact Hdel].
    apply Qltb_true in Hc. exfalso. apply (Qlt_not_le _ _ Hc). eapply Qle_trans; eassumption.
Qed.

Lemma table_keyed_check (tbl : table) :
  forallb (fun kp => Nat.eqb (package_id (snd kp)) (fst kp)) tbl = true -> table_keyed tbl.
Proof.
  unfold table_keyed, lookup.
  induction tbl as [|[k p] r IH]; intros H k' q Hq; simpl in *; [discriminate|].
  apply andb_prop in H as [H1 H2].
  destruct (Nat.eqb k' k) eqn:E.
  - injection Hq as <-. apply Nat.eqb_eq in E. apply Nat.eqb_eq in H1. congruence.
  - apply IH; assumption.
Qed.

Lemma get_distance_nonneg (g : Geography) :
  forallb (forallb (Qle_bool 0)) (distance_matrix g) = true ->
  forall a b, 0 <= get_distance g a b.
Proof.
  intros H a b. unfold get_distance. cbv zeta.
  destruct (map_get (address_map g) _) as [i|]; [|apply Qle_refl].
  destruct (map_get (address_map g) _) as [j|]; [|apply Qle_refl].
  destruct (nth_in_or_default i (distance_matrix g) []) as [Hi|Hi].
  - pose proof (proj1 (forallb_forall _ _) H _ Hi) as Hrow.
    destruct (nth_in_or_default j (nth i (distance_matrix g) []) 0) as [Hj|Hj].
    + apply Qle_bool_iff. exact (proj1 (forallb_forall _ _) Hrow _ Hj).
    + rewrite Hj. apply Qle_refl.
  - rewrite Hi. destruct j; apply Qle_refl.
Qed.

(** X14: [execute_route] never turns the clock or the odometer back when the
    distances are non-negative and the speed positive; the truck ends at
    the hub with its return time set to its final clock. *)
Theorem execute_route_monotone (g : Geography) (t : Truck) (tbl : table)
  (Hdist : forall a b, 0 <= get_distance g a b) (Hs : 0 < speed t) :
  let '(t', _) := execute_route g t tbl in
  ttime t <= ttime t' /\ mileage t <= mileage t' /\
  location t' = "hub" /\ tstatus t' = AT_HUB /\ return_time t' = Some (ttime t').
Proof.
  unfold execute_route.
  pose proof (exec_loop_time_mono g Hdist max_iterations t tbl 0 "hub" Hs) as Ht.
  pose proof (exec_loop_mileage_mono g Hdist max_iterations t tbl 0 "hub") as Hm.
  pose proof (exec_loop_speed g max_iterations t tbl 0 "hub") as Hsp.
  destruct (exec_loop g max_iterations t tbl 0 "hub") as [[[t1 tbl1] j] loc].
  cbn [fst snd] in Ht, Hm, Hsp.
  cbn [return_to_hub drive ttime mileage location tstatus return_time].
  split; [|split; [|split; [reflexivity|split; reflexivity]]].
  - eapply Qle_trans; [exact Ht|].
    rewrite <- (Qplus_0_r (ttime t1)) at 1. apply Qplus_le_r.
    apply Qle_shift_div_l; [rewrite Hsp; exact Hs|]. rewrite Qmult_0_l. apply Hdist.
  - eapply Qle_trans; [exact Hm|].
    rewrite <- (Qplus_0_r (mileage t1)) at 1. apply Qplus_le_r. apply Hdist.
Qed.

Lemma execute_route_monotone_witness :
  let '(t', _) := execute_route geo_two truck_wrong_addr tbl_wrong_addr in
  ttime truck_wrong_addr <= ttime t' /\ mileage truck_wrong_addr <= mileage t' /\
  location t' = "hub" /\ tstatus t' = AT_HUB /\ return_time t' = Some (ttime t').
Proof.
  apply (execute_route_monotone geo_two truck_wrong_addr tbl_wrong_addr).
  - apply get_distance_nonneg. vm_compute. reflexivity.
  - vm_compute. reflexivity.
Defined.

(** X15: [execute_route] leaves every package that is not on the truck's route
    as it was in the table. *)
Theorem execute_route_frame (g : Geography) (t : Truck) (tbl : table) (pid : nat)
  (Hk : table_keyed tbl) (Hn : ~ In pid (troute t)) :
  lookup (snd (execute_route g t tbl)) pid = lookup tbl pid.
Proof.
  unfold execute_route.
  pose proof (exec_loop_frame g max_iterations t tbl 0 "hub" pid Hk Hn) as H.
  destruct (exec_loop g max_iterations t tbl 0 "hub") as [[[t1 tbl1] j] loc].
  exact H.
Qed.

Lemma execute_route_frame_witness :
  lookup (snd (execute_route geo_line (set_route truck_deferred [1%nat]) tbl_deferred)) 5%nat =
  lookup tbl_deferred 5%nat.
Proof.
  apply (execute_route_frame geo_line (set_route truck_deferred [1%nat]) tbl_deferred 5%nat).
  - apply table_keyed_check. vm_compute. reflexivity.
  - intros [H|[]]. discriminate.
Defined.

(** X16: When every package on the route is in the table with its address
    correction already in force at the truck's start time, and the route
    has at most [max_iterations] stops, [execute_route] marks every package
    of the route delivered, with a delivery time. *)
Theorem execute_route_delivers_all (g : Geography) (t : Truck) (tbl : table)
  (Hdist : forall a b, 0 <= get_distance g a b) (Hs : 0 < speed t)
  (Hk : table_keyed tbl)
  (Hgood : forall pid, In pid (troute t) ->
     exists p, lookup tbl pid = Some p /\ correction_settled (ttime t) p)
  (Hlen : (List.length (troute t) <= max_iterations)%nat) :
  forall pid, In pid (troute t) -> delivered_in (snd (execute_route g t tbl)) pid.
Proof.
  intros pid Hpid. unfold execute_route.
  assert (H0 : forall q, In q (firstn 0 (troute t)) -> delivered_in tbl q).
  { intros q Hq. destruct Hq. }
  assert (Hf : (List.length (troute t) <= max_iterations + 0)%nat) by lia.
  pose proof (exec_loop_delivers g Hdist (troute t) (ttime t) max_iterations
                t tbl 0 "hub" eq_refl (Qle_refl _) Hs Hk Hgood H0 Hf pid Hpid) as H.
  destruct (exec_loop g max_iterations t tbl 0 "hub") as [[[t1 tbl1] j] loc].
  exact H.
Qed.

Lemma execute_route_delivers_all_witness :
  delivered_in (snd (execute_route geo_line truck_line tbl_line)) 1%nat.
Proof.
  apply (execute_route_delivers_all geo_line truck_line tbl_line).
  - apply get_distance_nonneg. vm_compute. reflexivity.
  - vm_compute. reflexivity.
  - apply table_keyed_check. vm_compute. reflexivity.
  - intros pid Hin. cbn [troute truck_line set_route set_cargo new_truck] in Hin.
    repeat (destruct Hin as [<-|Hin]; [eexists; split; [reflexivity|exact I]|]).
    destruct Hin.
  - unfold max_iterations. cbn. lia.
  - cbn [troute truck_line set_route set_cargo new_truck]. right. right. left. reflexivity.
Defined.

(* ------------------------------------------------------------------ *)
(** ** Mileage estimate and status views *)

Lemma normalize_address_idem (a : string) :
  normalize_address (normalize_address a) = normalize_address a.
Proof.
  unfold normalize_address.
  destruct (String.eqb a "") eqn:E0; [reflexivity|].
  destruct (String.eqb a "hub" || String.eqb a "wgu" || String.eqb a "wgups") eqn:E1;
    [reflexivity|].
  rewrite E0, E1. reflexivity.
Qed.

Lemma get_distance_congr (g : Geography) (a a' b b' : string) :
  normalize_address a = normalize_address a' ->
  normalize_address b = normalize_address b' ->
  get_distance g a b = get_distance g a' b'.
Proof. intros Ha Hb. unfold get_distance. rewrite Ha, Hb. reflexivity. Qed.

Lemma estimate_loop_none (g : Geography) (tbl : table) (route : list nat) :
  forall loc total,
  estimate_loop g tbl loc total route = None <->
  exists pid, In pid route /\ lookup tbl pid = None.
Proof.
  induction route as [|pid r IH]; intros loc total; simpl.
  - split; [discriminate|]. intros [pid [[] _]].
  - destruct (lookup tbl pid) as [pkg|] eqn:E.
    + rewrite IH. split.
      * intros [q [Hq Hl]]. exists q. split; [right; exact Hq|exact Hl].
      * intros [q [[<-|Hq] Hl]]; [congruence|]. exists q. split; assumption.
    + split; [intros _; exists pid; split; [left; reflexivity|exact E]|reflexivity].
Qed.

Lemma estimate_loop_agrees (g : Geography) (tbl : table) (now : Q) (route : list nat) :
  (forall pid, In pid route -> exists p, lookup tbl pid = Some p /\
     corrected_address p = None /\ original_address p = address p) ->
  forall loc1 loc2 total, normalize_address loc1 = normalize_address loc2 ->
  exists l2, estimate_loop g tbl loc2 total route =
               Some (fst (route_distance_loop g tbl now loc1 total route), l2) /\
             normalize_address (snd (route_distance_loop g tbl now loc1 total route)) =
             normalize_address l2.
Proof.
  induction route as [|pid r IH]; intros Hgood loc1 loc2 total Hloc; simpl.
  - exists loc2. split; [reflexivity|exact Hloc].
  - destruct (Hgood pid (or_introl eq_refl)) as [p [Hl [Hc Ho]]].
    rewrite Hl. unfold lookup_pkg. rewrite Hl.
    assert (Ha : get_address p (Some now) = normalize_address (address p)).
    { unfold get_address, corrected_or_address. rewrite Hc.
      destruct (correction_time p); [|reflexivity].
      destruct (Qltb now q); [rewrite Ho|]; reflexivity. }
    rewrite Ha.
    rewrite (get_distance_congr g loc1 loc2 (normalize_address (address p)) (address p)
               Hloc (normalize_address_idem _)).
    apply IH; [intros q Hq; apply Hgood; right; exact Hq|].
    apply normalize_address_idem.
Qed.

(** X17: [estimate_route_mileage] fails (its [None.address] raises) exactly
    when some id of the route is not in the package table. *)
Theorem estimate_route_mileage_none_iff (g : Geography) (tbl : table) (route : list nat) :
  estimate_route_mileage g tbl route = None <->
  exists pid, In pid route /\ lookup tbl pid = None.
Proof.
  unfold estimate_route_mileage. rewrite <- (estimate_loop_none g tbl route "hub" 0).
  destruct (estimate_loop g tbl "hub" 0 route) as [[total loc]|]; split;
    intro H; congruence.
Qed.

(** X18: on a route of packages in the table with no corrected address,
    [estimate_route_mileage] gives the round-trip distance the planner's
    [calculate_route_distance] computes, at any clock. *)
Theorem estimate_route_mileage_agrees (g : Geography) (tbl : table) (now : Q)
  (route : list nat) :
  (forall pid, In pid route -> exists p, lookup tbl pid = Some p /\
     corrected_address p = None /\ original_address p = address p) ->
  estimate_route_mileage g tbl route = Some (calculate_route_distance g tbl now route).
Proof.
  intro Hgood. unfold estimate_route_mileage, calculate_route_distance.
  destruct (estimate_loop_agrees g tbl now route Hgood "hub" "hub" 0 eq_refl)
    as [l2 [E Hn]].
  rewrite E.
  destruct (route_distance_loop g tbl now "hub" 0 route) as [total loc]. cbn [fst snd] in *.
  rewrite (get_distance_congr g loc l2 "hub" "hub" Hn eq_refl). reflexivity.
Qed.

Lemma estimate_route_mileage_agrees_witness :
  estimate_route_mileage geo_line tbl_line [2%nat; 3%nat; 1%nat; 4%nat] =
  Some (calculate_route_distance geo_line tbl_line START_TIME [2%nat; 3%nat; 1%nat; 4%nat]).
Proof.
  apply (estimate_route_mileage_agrees geo_line tbl_line START_TIME).
  intros pid Hin.
  repeat (destruct Hin as [<-|Hin];
          [eexists; split; [reflexivity|split; reflexivity]|]).
  destruct Hin.
Defined.

Lemma get_status_rank_mono (p : Package) (t1 t2 : Q) :
  t1 <= t2 -> (status_rank (get_status p t1) <= status_rank (get_status p t2))%nat.
Proof.
  intro H. unfold get_status.
  assert (Hle : forall d, Qle_bool d t1 = true -> Qle_bool d t2 = true).
  { intros d Hd. apply Qle_bool_iff. apply Qle_bool_iff in Hd. eapply Qle_trans; eassumption. }
  assert (Hdep : (status_rank (match departure_time p with
                  | Some dep => if Qle_bool dep t1 then En_route_on (truck_assigned p) else At_the_hub
                  | None => At_the_hub end) <=
                 status_rank (match departure_time p with
                  | Some dep => if Qle_bool dep t2 then En_route_on (truck_assigned p) else At_the_hub
                  | None => At_the_hub end))%nat).
  { destruct (departure_time p) as [dep|]; [|constructor].
    destruct (Qle_bool dep t1) eqn:E1; [rewrite (Hle _ E1); constructor|].
    destruct (Qle_bool dep t2); cbn; lia. }
  cbv zeta. destruct (delivery_time p) as [d|]; [|exact Hdep].
  destruct (Qle_bool d t1) eqn:E1; [rewrite (Hle _ E1); constructor|].
  destruct (Qle_bool d t2); [|exact Hdep].
  destruct (departure_time p) as [dep|]; [destruct (Qle_bool dep t1)|]; cbn; lia.
Qed.

(** X19: the status the reports show never goes back as the query time
    grows: a package shown delivered stays delivered, one shown en route
    is later en route or delivered.  The same holds for
    [Package.get_status]. *)
Theorem get_status_monotone (p : Package) (t1 t2 : Q) :
  t1 <= t2 ->
  (status_rank (get_status_at_time p t1) <= status_rank (get_status_at_time p t2))%nat /\
  (status_rank (get_status p t1) <= status_rank (get_status p t2))%nat.
Proof.
  intro H. split; [|apply get_status_rank_mono, H].
  unfold get_status_at_time.
  destruct (Qltb t1 (available_time p)) eqn:E1; [cbn; lia|].
  destruct (Qltb t2 (available_time p)) eqn:E2.
  - apply Qltb_true in E2. exfalso.
    unfold Qltb in E1. apply negb_false_iff, Qle_bool_iff in E1.
    apply (Qlt_not_le _ _ E2). eapply Qle_trans; eassumption.
  - apply get_status_rank_mono, H.
Qed.

Lemma get_status_monotone_witness :
  let p := pkg_deliver (pkg_pickup (new_package 1 "a" None START_TIME None [] None None)
                          START_TIME 1) 9 in
  (status_rank (get_status_at_time p (17 # 2)) <= status_rank (get_status_at_time p 10))%nat /\
  (status_rank (get_status p (17 # 2)) <= status_rank (get_status p 10))%nat.
Proof.
  intro p. apply (get_status_monotone p (17 # 2) 10).
  apply Qle_bool_iff. reflexivity.
Defined.

(** X20: the address the reports print, once normalised, is the address
    [Package.get_address] gives at the same time. *)
Theorem get_address_at_time_normalized (p : Package) (now : Q) :
  normalize_address (get_address_at_time p now) = get_address p (Some now).
Proof.
  unfold get_address_at_time, get_address, corrected_or_address. cbv zeta.
  destruct (correction_time p) as [ct|]; [destruct (Qltb now ct)|]; reflexivity.
Qed.

(* ------------------------------------------------------------------ *)
(** ** Proximity loading *)

(** [truck.load_package(packages.lookup(pid))]: the cargo only grows, the
    table keeps its keys, and a truck with room takes a package that is in
    the table. *)
Lemma load_pid_spec (t : Truck) (tbl : table) (pid : nat) :
  table_keyed tbl ->
  let '(t', tbl') := load_pid t tbl pid in
  table_keyed tbl' /\ (forall q, lookup tbl' q = None <-> lookup tbl q = None) /\
  capacity t' = capacity t /\ (forall x, In x (cargo t) -> In x (cargo t')) /\
  (List.length (cargo t) <= List.length (cargo t'))%nat /\
  (has_capacity t = true -> lookup tbl pid <> None -> In pid (cargo t')).
Proof.
  intro Hk. unfold load_pid.
  destruct (lookup tbl pid) as [pkg|] eqn:Hl.
  2: { split; [exact Hk|]. split; [reflexivity|]. split; [reflexivity|].
       split; [auto|]. split; [constructor|]. intros _ H. contradiction. }
  pose proof (Hk _ _ Hl) as Hid.
  assert (Hnone : forall p, package_id p = package_id pkg ->
            forall q, lookup (tbl_insert tbl p) q = None <-> lookup tbl q = None).
  { intros p Hp q. rewrite lookup_tbl_insert, Hp.
    destruct (Nat.eqb q (package_id pkg)) eqn:E; [|reflexivity].
    apply Nat.eqb_eq in E. rewrite E, Hid, Hl. split; discriminate. }
  unfold load_package. destruct (Nat.leb (capacity t) (List.length (cargo t))) eqn:Hc.
  - split; [apply table_keyed_insert, Hk|]. split; [apply Hnone; reflexivity|].
    split; [reflexivity|]. split; [auto|]. split; [constructor|].
    intros Hh _. unfold has_capacity in Hh.
    apply Nat.ltb_lt in Hh. apply Nat.leb_le in Hc. lia.
  - split; [apply table_keyed_insert, Hk|]. split; [apply Hnone; reflexivity|].
    cbn [capacity cargo set_cargo]. split; [reflexivity|].
    split; [intros x Hx; apply in_or_app; left; exact Hx|].
    split; [rewrite length_app; lia|].
    intros _ _. apply in_or_app. right. left. exact Hid.
Qed.

(** X21: after [load_by_proximity], every standard package that is in the
    table is on one of the two trucks, unless both trucks are full. *)
Theorem load_by_proximity_places_all (t1 t2 : Truck) (std : list nat) (tbl : table)
  (g : Geography) (k1 k2 : nat) (Hk : table_keyed tbl) :
  let '(t1', t2', tbl') := load_by_proximity t1 t2 std tbl g k1 k2 in
  forall pid, In pid std -> lookup tbl pid <> None ->
  In pid (cargo t1') \/ In pid (cargo t2') \/
  (has_capacity t1' = false /\ has_capacity t2' = false).
Proof.
  unfold load_by_proximity.
  destruct std as [|p0 ps] eqn:Estd; [cbv beta iota; intros pid []|].
  rewrite <- Estd.
  set (c1 := calculate_center (cargo t1) tbl k1).
  set (c2 := calculate_center (cargo t2) tbl k2).
  match goal with |- context [fold_left ?F std _] => set (step := F) end.
  (* what one step keeps, and where it puts its package *)
  pose (P := fun (a b : Truck) (tb : table) (pid : nat) (r : Truck * Truck * table) =>
    table_keyed (snd r) /\ (forall q, lookup (snd r) q = None <-> lookup tb q = None) /\
    capacity (fst (fst r)) = capacity a /\ capacity (snd (fst r)) = capacity b /\
    (forall x, In x (cargo a) -> In x (cargo (fst (fst r))))  /\
    (forall x, In x (cargo b) -> In x (cargo (snd (fst r)))) /\
    (List.length (cargo a) <= List.length (cargo (fst (fst r))))%nat /\
    (List.length (cargo b) <= List.length (cargo (snd (fst r))))%nat /\
    (lookup tb pid <> None ->
     In pid (cargo (fst (fst r))) \/ In pid (cargo (snd (fst r))) \/
     (has_capacity (fst (fst r)) = false /\ has_capacity (snd (fst r)) = false))).
  assert (Hstep : forall a b tb pid, table_keyed tb -> P a b tb pid (step (a, b, tb) pid)).
  { intros a b tb pid Hkt.
    pose proof (load_pid_spec a tb pid Hkt) as HA.
    pose proof (load_pid_spec b tb pid Hkt) as HB.
    assert (Hsame : (has_capacity a = false /\ has_capacity b = false) \/
                    In pid (cargo a) \/ In pid (cargo b) \/ lookup tb pid = None ->
                    P a b tb pid (a, b, tb)).
    { intros Hor. unfold P; cbn [fst snd].
      split; [exact Hkt|]. split; [reflexivity|]. split; [reflexivity|]. split; [reflexivity|].
      split; [auto|]. split; [auto|]. split; [constructor|]. split; [constructor|].
      intros Hl. destruct Hor as [H|[H|[H|H]]]; auto. contradiction. }
    cbv delta [step] beta iota zeta.
    destruct (load_pid a tb pid) as [a' ta'].
    destruct HA as [Hka [Hna [Hca [Hsa [Hla Hia]]]]].
    destruct (load_pid b tb pid) as [b' tb'].
    destruct HB as [Hkb [Hnb [Hcb [Hsb [Hlb Hib]]]]].
    assert (H1 : has_capacity a = true -> P a b tb pid (a', b, ta')).
    { intros Ha. unfold P; cbn [fst snd].
      split; [exact Hka|]. split; [exact Hna|]. split; [exact Hca|]. split; [reflexivity|].
      split; [exact Hsa|]. split; [auto|]. split; [exact Hla|]. split; [constructor|].
      intros Hl. left. apply Hia; assumption. }
    assert (H2 : has_capacity b = true -> P a b tb pid (a, b', tb')).
    { intros Hb. unfold P; cbn [fst snd].
      split; [exact Hkb|]. split; [exact Hnb|]. split; [reflexivity|]. split; [exact Hcb|].
      split; [auto|]. split; [exact Hsb|]. split; [constructor|]. split; [exact Hlb|].
      intros Hl. right. left. apply Hib; assumption. }
    destruct (mem pid (cargo a) || mem pid (cargo b)) eqn:Em.
    { apply Hsame. apply orb_true_iff in Em as [Em|Em]; apply mem_true in Em; auto. }
    destruct (lookup tb pid) as [pkg|] eqn:Hl; [|apply Hsame; auto].
    destruct (has_capacity a) eqn:Ha; destruct (has_capacity b) eqn:Hb;
      rewrite ?andb_true_r, ?andb_false_r;
      repeat match goal with |- context [if ?c then _ else _] => destruct c end;
      first [apply H1; reflexivity | apply H2; reflexivity | apply Hsame; auto]. }
  (* the whole loop *)
  assert (Hloop : forall l a b tb, table_keyed tb ->
    (forall q, lookup tb q = None <-> lookup tbl q = None) ->
    let r := fold_left step l (a, b, tb) in
    table_keyed (snd r) /\ (forall q, lookup (snd r) q = None <-> lookup tbl q = None) /\
    capacity (fst (fst r)) = capacity a /\ capacity (snd (fst r)) = capacity b /\
    (forall x, In x (cargo a) -> In x (cargo (fst (fst r)))) /\
    (forall x, In x (cargo b) -> In x (cargo (snd (fst r)))) /\
    (List.length (cargo a) <= List.length (cargo (fst (fst r))))%nat /\
    (List.length (cargo b) <= List.length (cargo (snd (fst r))))%nat /\
    (forall pid, In pid l -> lookup tbl pid <> None ->
     In pid (cargo (fst (fst r))) \/ In pid (cargo (snd (fst r))) \/
     (has_capacity (fst (fst r)) = false /\ has_capacity (snd (fst r)) = false))).
  { induction l as [|pid l IH]; intros a b tb Hkt Hn r.
    - subst r. cbn [fold_left fst snd].
      split; [exact Hkt|]. split; [exact Hn|]. split; [reflexivity|]. split; [reflexivity|].
      split; [auto|]. split; [auto|]. split; [constructor|]. split; [constructor|].
      intros pid [].
    - subst r. cbn [fold_left].
      pose proof (Hstep a b tb pid Hkt) as Hs.
      destruct (step (a, b, tb) pid) as [[a1 b1] tb1].
      unfold P in Hs; cbn [fst snd] in Hs.
      destruct Hs as [Hk1 [Hn1 [Hca1 [Hcb1 [Hsa1 [Hsb1 [Hla1 [Hlb1 Hp1]]]]]]]].
      assert (Hn1' : forall q, lookup tb1 q = None <-> lookup tbl q = None)
        by (intro q; rewrite Hn1; apply Hn).
      specialize (IH a1 b1 tb1 Hk1 Hn1'). cbv zeta in IH.
      destruct (fold_left step l (a1, b1, tb1)) as [[a2 b2] tb2]. cbn [fst snd] in IH |- *.
      destruct IH as [Hk2 [Hn2 [Hca2 [Hcb2 [Hsa2 [Hsb2 [Hla2 [Hlb2 Hp2]]]]]]]].
      split; [exact Hk2|]. split; [exact Hn2|]. split; [congruence|]. split; [congruence|].
      split; [auto|]. split; [auto|]. split; [lia|]. split; [lia|].
      intros q [<-|Hq] Hl; [|apply Hp2; assumption].
      assert (Hl' : lookup tb pid <> None) by (intro E; apply Hl, Hn, E).
      destruct (Hp1 Hl') as [H|[H|[Ha Hb]]]; [left; auto|right; left; auto|].
      right; right. unfold has_capacity in *. apply Nat.ltb_ge in Ha, Hb.
      split; apply Nat.ltb_ge; lia. }
  specialize (Hloop std t1 t2 tbl Hk (fun q => iff_refl _)). cbv zeta in Hloop.
  destruct (fold_left step std (t1, t2, tbl)) as [[a b] tb].
  cbn [fst snd] in Hloop. intros pid Hin Hl.
  destruct Hloop as [_ [_ [_ [_ [_ [_ [_ [_ Hp]]]]]]]]. apply Hp; assumption.
Qed.

Lemma load_by_proximity_places_all_witness :
  let '(t1', t2', tbl') :=
    load_by_proximity (set_cargo (new_truck 1 START_TIME 16) [1%nat]) (new_truck 2 (109 # 12) 16)
      [2%nat; 3%nat; 4%nat] tbl_line geo_line 0 0 in
  In 3%nat (cargo t1') \/ In 3%nat (cargo t2') \/
  (has_capacity t1' = false /\ has_capacity t2' = false).
Proof.
  pose proof (load_by_proximity_places_all (set_cargo (new_truck 1 START_TIME 16) [1%nat])
           (new_truck 2 (109 # 12) 16) [2%nat; 3%nat; 4%nat] tbl_line geo_line 0 0) as H.
  assert (Hk : table_keyed tbl_line) by (apply table_keyed_check; vm_compute; reflexivity).
  specialize (H Hk).
  destruct (load_by_proximity (set_cargo (new_truck 1 START_TIME 16) [1%nat])
              (new_truck 2 (109 # 12) 16) [2%nat; 3%nat; 4%nat] tbl_line geo_line 0 0)
    as [[t1' t2'] tbl'].
  apply H; [right; left; reflexivity|vm_compute; discriminate].
Defined.

(* ------------------------------------------------------------------ *)
(** ** Route execution: the packages without a correction *)

















(* ------------------------------------------------------------------ *)
(** ** Loading frames *)
























(* ------------------------------------------------------------------ *)
(** ** Claim C6: group atomicity *)


